(** * Adapter layer of Trilinos: Belos/MueLu operator adapter and the
      Amesos2 matrix format adapter

    Part I embeds [Belos::MueLuEpetraPrecOp] of
    packages/muelu/src/MueCentral/BelosMueLuAdapter.hpp.
    Part II concerns [Amesos::MatrixAdapter<Tpetra::CrsMatrix>], which is
    exercised by packages/amesos2/test/adapters/Tpetra_CrsMatrix_Adapter_UnitTests.cpp. *)

From stdpp Require Import gmap strings list sorting.
From Stdlib Require Import ZArith.

(* ===================================================================== *)
(** * Part I: Belos::MueLuEpetraPrecOp                                    *)
(* ===================================================================== *)

Module Belos.

(** Modelled from the spec: the enumeration [ETrans] is declared in
    BelosTypes.hpp, which is not part of the sources at hand.  The adapter
    only distinguishes "no transpose" from every other mode. *)
Inductive ETrans : Set := NOTRANS | TRANS | CONJTRANS.

#[global] Instance ETrans_eq_dec : EqDecision ETrans.
Proof. solve_decision. Defined.

(** The only exception class thrown by the adapter; [what] is the message
    handed to TEST_FOR_EXCEPTION. *)
Inductive Exception : Set := EpetraOpFailure (what : string).

#[global] Instance Exception_eq_dec : EqDecision Exception.
Proof. solve_decision. Defined.

(** A call either returns normally or leaves by an exception. *)
Inductive Outcome (A : Type) : Type :=
| Returned (a : A)
| Thrown (e : Exception).
Arguments Returned {A} a.
Arguments Thrown {A} e.

(** The two failure conditions of the operator adapter, told apart by the
    message of the [EpetraOpFailure] that carries them. *)
Definition UnsupportedOperation : Exception :=
  EpetraOpFailure "Belos::MueLuEpetraPrecOp::Apply, transpose mode != NOTRANS not supported by MueLu preconditionners.".

Definition InterfaceMismatch : Exception :=
  EpetraOpFailure "Belos::MueLuEpetraPrecOp::Apply, x and/or y cannot be dynamic cast to an Epetra_MultiVector.".

(** A reference to a [Belos::MultiVec<double>]: its dynamic type is either
    the Epetra implementation (which is an [Epetra_MultiVector] living at
    some address) or some other implementation of the interface. *)
Inductive MultiVec : Set :=
| EpetraMultiVec (a : nat)
| OtherMultiVec (id : nat).

(** [dynamic_cast<Epetra_MultiVector*>(&v)]; [None] is the NULL pointer. *)
Definition dynamic_cast (v : MultiVec) : option nat :=
  match v with
  | EpetraMultiVec a => Some a
  | OtherMultiVec _ => None
  end.

(** One recorded call of [Hierarchy::Iterate]. *)
Record IterateCall : Set := mkCall {
  call_rhs : nat;
  call_nIts : nat;
  call_sol : nat;
  call_InitialGuessIsZero : bool
}.

Section Adapter.

(** [double] and its [0.0]. *)
Context {Scalar : Type} (zero : Scalar).

(** Contents of an [Epetra_MultiVector]: one list of entries per vector. *)
Abbreviation MultiVectorData := (list (list Scalar)).

(** The multigrid hierarchy is an external collaborator: [cycle H b n x0 z]
    is what [H.Iterate(b, n, x, z)] leaves in [x] when [x] holds [x0]. *)
Context {Hierarchy : Type}.
Context (cycle : Hierarchy → MultiVectorData → nat → MultiVectorData → bool → MultiVectorData).

(** The store of live [Epetra_MultiVector] objects, by address, and the
    log of calls made to the hierarchy. *)
Record Machine : Type := mkMachine {
  vectors : gmap nat MultiVectorData;
  calls : list IterateCall
}.

(** Computations that read and write the machine and may throw. *)
Definition Exec (A : Type) : Type := Machine → Outcome A * Machine.

Definition ret {A} (a : A) : Exec A := λ m, (Returned a, m).

Definition bind {A B} (c : Exec A) (k : A → Exec B) : Exec B :=
  λ m, match c m with
       | (Returned a, m') => k a m'
       | (Thrown e, m') => (Thrown e, m')
       end.

Definition throw {A} (e : Exception) : Exec A := λ m, (Thrown e, m).

Notation "c1 ;;; c2" := (bind c1 (λ _, c2))
  (at level 100, c2 at level 200, right associativity, only parsing).

(** Teuchos' macro: throw when the test holds, else fall through. *)
Definition TEST_FOR_EXCEPTION (throw_exception_test : bool) (e : Exception) : Exec unit :=
  if throw_exception_test then throw e else ret ().

(** [v.putScalar(a)]: every entry of the vector becomes [a]. *)
Definition filled (a : Scalar) (d : MultiVectorData) : MultiVectorData :=
  (λ col : list Scalar, (λ _ : Scalar, a) <$> col) <$> d.

Definition putScalar (v : nat) (a : Scalar) : Exec unit :=
  λ m, (Returned (), mkMachine (alter (filled a) v (vectors m)) (calls m)).

(** [H.Iterate(rhs, nIts, X, InitialGuessIsZero)]: reads both vectors
    where they are at the time of the call and overwrites [X]. *)
Definition Iterate (H : Hierarchy) (rhs : nat) (nIts : nat) (X : nat) (InitialGuessIsZero : bool) : Exec unit :=
  λ m, (Returned (),
        mkMachine
          match vectors m !! rhs, vectors m !! X with
          | Some b, Some x0 => <[X := cycle H b nIts x0 InitialGuessIsZero]> (vectors m)
          | _, _ => vectors m
          end
          (calls m ++ [mkCall rhs nIts X InitialGuessIsZero])).

(** The adapter object: it holds the hierarchy. *)
Record MueLuEpetraPrecOp : Type := mkPrecOp { Hierarchy_ : Hierarchy }.

(** [Apply(const Epetra_MultiVector& x, Epetra_MultiVector& y, ETrans trans)].
    The wrappers [eX], [eY] are built with [rcpFromRef]: they are views of
    the very same objects. *)
Definition Apply (this : MueLuEpetraPrecOp) (x y : nat) (trans : ETrans) : Exec unit :=
  TEST_FOR_EXCEPTION (bool_decide (trans ≠ NOTRANS)) UnsupportedOperation;;;
  let eX := x in
  let eY := y in
  putScalar eY zero;;;
  Iterate (Hierarchy_ this) eX 1 eY true.

(** [Apply(const Belos::MultiVec<double>& x, Belos::MultiVec<double>& y, ETrans trans)].
    The test [vec_x==NULL || vec_y==NULL] and the two dereferences that
    follow it are one match: both pointers are dereferenced exactly when
    neither is NULL. *)
Definition Apply_MultiVec (this : MueLuEpetraPrecOp) (x y : MultiVec) (trans : ETrans) : Exec unit :=
  let vec_x := dynamic_cast x in
  let vec_y := dynamic_cast y in
  match vec_x, vec_y with
  | Some px, Some py => Apply this px py trans
  | _, _ => throw InterfaceMismatch
  end.

End Adapter.

(** ** A small instance to run the adapter on *)

(** A hierarchy that performs damped Richardson sweeps: [omega] is the
    damping factor, and one sweep moves the iterate towards the right-hand
    side.  What was in the iterate shows in the result unless it is
    zeroed first. *)
Definition sweep (omega : Z) (b x : list (list Z)) : list (list Z) :=
  zip_with (zip_with (λ bi xi, xi + omega * (bi - xi))%Z) b x.

Definition richardson (omega : Z) (b : list (list Z)) (nIts : nat)
    (x0 : list (list Z)) (InitialGuessIsZero : bool) : list (list Z) :=
  Nat.iter nIts (sweep omega b) x0.

(** Two live vectors: a right-hand side at address 0 and an output vector
    at address 1 that was pre-filled with other values. *)
Definition twoVectors : Machine (Scalar := Z) :=
  mkMachine (<[0 := [[1; 2; 3]%Z]]> (<[1 := [[99; 98; 97]%Z]]> ∅)) [].

Definition precOp : MueLuEpetraPrecOp (Hierarchy := Z) := mkPrecOp 2%Z.

End Belos.

(* ===================================================================== *)
(** * Part II: the distributed matrix and Amesos::MatrixAdapter           *)
(* ===================================================================== *)

Module Tpetra.

Section CrsMatrix.

Context {Scalar : Type}.

(** A stored nonzero: (row, column, value). *)
Abbreviation Triple := (nat * nat * Scalar)%type.

Definition row (t : Triple) : nat := t.1.1.
Definition col (t : Triple) : nat := t.1.2.
Definition val (t : Triple) : Scalar := t.2.

(** The position of a stored nonzero in the matrix. *)
Definition position (t : Triple) : nat * nat := (row t, col t).

(** Modelled from the spec: [Tpetra::CrsMatrix] is only used, not defined,
    by the sources at hand.  Following the data model (the row-partitioned
    DistributedSparseMatrix), the share of one process is the list of
    global rows it owns, indexed by local row, and its local nonzeros as
    (local row, global column, value) triples. *)
Record LocalPart : Type := mkPart {
  myGlobalRows : list nat;
  localEntries : list Triple
}.

(** Modelled from the spec: the distributed matrix is its global
    dimensions and one share per process, by rank. *)
Record CrsMatrix : Type := mkMatrix {
  GlobalNumRows : nat;
  GlobalNumCols : nat;
  parts : list LocalPart
}.

(** Modelled from the spec: a local nonzero of the absent matrix class seen
    in global index space, through the owner's list of rows. *)
Definition toGlobal (p : LocalPart) (e : Triple) : option Triple :=
  r ← myGlobalRows p !! row e; Some (r, col e, val e).

(** Modelled from the spec: the local nonzeros of one process of the absent
    matrix class, in global index space. *)
Definition globalTriples (p : LocalPart) : list Triple :=
  omap (toGlobal p) (localEntries p).

(** Modelled from the spec: the true nonzeros of the absent matrix class,
    as global triples in rank order. *)
Definition nonzeros (A : CrsMatrix) : list Triple :=
  p ← parts A; globalTriples p.

(** The nonzeros of one global row (column), as (column, value)
    (resp. (row, value)) pairs. *)
Definition rowNonzeros (A : CrsMatrix) (r : nat) : list (nat * Scalar) :=
  (λ t, (col t, val t)) <$> filter (λ t, row t = r) (nonzeros A).

Definition colNonzeros (A : CrsMatrix) (c : nat) : list (nat * Scalar) :=
  (λ t, (row t, val t)) <$> filter (λ t, col t = c) (nonzeros A).

(** Modelled from the spec: the share of a process is well formed when the
    rows it owns are global rows and each local nonzero sits in an owned
    row and in a global column. *)
Definition partOk (A : CrsMatrix) (p : LocalPart) : Prop :=
  Forall (λ r, r < GlobalNumRows A) (myGlobalRows p) ∧
  Forall (λ e, row e < length (myGlobalRows p) ∧ col e < GlobalNumCols A) (localEntries p).

(** Modelled from the spec: a valid fill-completed matrix has well-formed
    shares and stores at most one value per position. *)
Definition isFillComplete (A : CrsMatrix) : Prop :=
  Forall (partOk A) (parts A) ∧ NoDup (position <$> nonzeros A).

(** Modelled from the spec: the structural queries of the absent matrix
    class follow; the local ones are asked by the process of the given
    rank.  The global nonzero count is the sum of the local counts. *)
Definition getGlobalNumEntries (A : CrsMatrix) : nat :=
  sum_list ((λ p, length (localEntries p)) <$> parts A).

(** Modelled from the spec: the nonzero count of one process of the absent
    matrix class. *)
Definition getNodeNumEntries (A : CrsMatrix) (rank : nat) : nat :=
  from_option (λ p, length (localEntries p)) 0 (parts A !! rank).

(** Modelled from the spec: the global row count of the absent matrix class. *)
Definition getGlobalNumRows (A : CrsMatrix) : nat := GlobalNumRows A.

(** Modelled from the spec: the global column count of the absent matrix class. *)
Definition getGlobalNumCols (A : CrsMatrix) : nat := GlobalNumCols A.

(** Modelled from the spec: the number of rows one process of the absent
    matrix class owns. *)
Definition getNodeNumRows (A : CrsMatrix) (rank : nat) : nat :=
  from_option (λ p, length (myGlobalRows p)) 0 (parts A !! rank).

(** Modelled from the spec: the number of distinct columns in which one
    process of the absent matrix class holds nonzeros. *)
Definition getNodeNumCols (A : CrsMatrix) (rank : nat) : nat :=
  from_option (λ p, length (remove_dups (col <$> localEntries p))) 0 (parts A !! rank).

(** Modelled from the spec: the maximum number of nonzeros in any single
    global row of the absent matrix class. *)
Definition getGlobalMaxNumRowEntries (A : CrsMatrix) : nat :=
  max_list ((λ r, length (rowNonzeros A r)) <$> seq 0 (GlobalNumRows A)).

End CrsMatrix.

Arguments LocalPart Scalar : clear implicits.
Arguments CrsMatrix Scalar : clear implicits.

#[global] Instance partOk_dec {Scalar} (A : CrsMatrix Scalar) p : Decision (partOk A p).
Proof. unfold partOk. apply _. Defined.

#[global] Instance isFillComplete_dec {Scalar} (A : CrsMatrix Scalar) : Decision (isFillComplete A).
Proof. unfold isFillComplete. apply _. Defined.

End Tpetra.

Module Amesos.

Import Tpetra.

(** Modelled from the spec: the failure condition of an extraction whose
    caller-provided buffers are too small. *)
Inductive ExtractionFailure : Set := SizeMismatch.

(** Modelled from the spec: the GlobalCRS / GlobalCCS artifact that an
    extraction of the absent adapter hands back: the nonzero values, the
    minor indices ([colind] for CRS, [rowind] for CCS), the pointers into
    them ([rowptr] resp. [colptr]) and the count written to [nnz]. *)
Record Compressed (Scalar : Type) : Type := mkCompressed {
  nzvals : list Scalar;
  indices : list nat;
  pointers : list nat;
  nnz : nat
}.
Arguments mkCompressed {Scalar} _ _ _ _.
Arguments nzvals {Scalar} _.
Arguments indices {Scalar} _.
Arguments pointers {Scalar} _.
Arguments nnz {Scalar} _.

(** Modelled from the spec: the pointer array of the absent extraction
    code, as the running offsets of consecutive slices of the given sizes. *)
Fixpoint offsets (start : nat) (sizes : list nat) : list nat :=
  match sizes with
  | [] => [start]
  | n :: sizes' => start :: offsets (start + n) sizes'
  end.

(** [a.view(offset, size)] of Teuchos arrays. *)
Definition view {A} (a : list A) (offset size : nat) : list A :=
  take size (drop offset a).

Section MatrixAdapter.

Context {Scalar : Type}.

(** Modelled from the spec: the adapter of Amesos2_TpetraCrsMatrixAdapter.hpp
    (absent from the sources at hand) holds a reference to the wrapped
    matrix and owns none of its data. *)
Record MatrixAdapter : Type := mkAdapter { mat_ : CrsMatrix Scalar }.

(** Modelled from the spec: the dimension and count queries of the absent
    adapter are pure delegations to the wrapped matrix, paired with the
    matrix queries as in the Dimensions test. *)
Definition getGlobalNNZ (a : MatrixAdapter) : nat := getGlobalNumEntries (mat_ a).

(** Modelled from the spec: delegation of the absent adapter. *)
Definition getLocalNNZ (a : MatrixAdapter) (rank : nat) : nat := getNodeNumEntries (mat_ a) rank.

(** Modelled from the spec: delegation of the absent adapter. *)
Definition getGlobalNumRows (a : MatrixAdapter) : nat := Tpetra.getGlobalNumRows (mat_ a).

(** Modelled from the spec: delegation of the absent adapter. *)
Definition getGlobalNumCols (a : MatrixAdapter) : nat := Tpetra.getGlobalNumCols (mat_ a).

(** Modelled from the spec: delegation of the absent adapter. *)
Definition getLocalNumRows (a : MatrixAdapter) (rank : nat) : nat := getNodeNumRows (mat_ a) rank.

(** Modelled from the spec: delegation of the absent adapter. *)
Definition getLocalNumCols (a : MatrixAdapter) (rank : nat) : nat := getNodeNumCols (mat_ a) rank.

(** Modelled from the spec: delegation of the absent adapter. *)
Definition getMaxNNZ (a : MatrixAdapter) : nat := getGlobalMaxNumRowEntries (mat_ a).

(** Modelled from the spec: every process's local nonzeros, gathered in
    rank order and expressed in global indices. *)
Definition gather (a : MatrixAdapter) : list (nat * nat * Scalar) :=
  nonzeros (mat_ a).

(** Modelled from the spec: one bucket of the bucketing pass of the absent
    extraction code, the gathered nonzeros whose major index is [k]. *)
Definition bucket (major : nat * nat * Scalar → nat) (k : nat)
    (ts : list (nat * nat * Scalar)) : list (nat * nat * Scalar) :=
  filter (λ t, major t = k) ts.

(** Modelled from the spec: the absent extraction code lays consecutive
    buckets out as the three flat arrays. *)
Definition compress (minor : nat * nat * Scalar → nat)
    (buckets : list (list (nat * nat * Scalar))) (count : nat) : Compressed Scalar :=
  mkCompressed (val <$> mjoin buckets) (minor <$> mjoin buckets)
               (offsets 0 (length <$> buckets)) count.

(** Modelled from the spec: the order by row index in which the absent
    [getCcs] sorts a column's entries. *)
Definition byRow (t u : nat * nat * Scalar) : Prop := row t ≤ row u.

#[global] Instance byRow_dec t u : Decision (byRow t u).
Proof. unfold byRow. apply _. Defined.

(** Modelled from the spec: the buffers handed to an extraction are large
    enough when the value and index buffers hold the global nonzero count
    and the pointer buffer holds one more than the number of slices. *)
Definition buffersFit (a : MatrixAdapter) (slices nzvalSize indSize ptrSize : nat) : Prop :=
  getGlobalNNZ a ≤ nzvalSize ∧ getGlobalNNZ a ≤ indSize ∧ slices + 1 ≤ ptrSize.

#[global] Instance buffersFit_dec a n s1 s2 s3 : Decision (buffersFit a n s1 s2 s3).
Proof. unfold buffersFit. apply _. Defined.

(** Modelled from the spec: the gathered triples of the absent [getCrs],
    reconciled into global row order; within a row they stay in the order
    in which they were gathered. *)
Definition rowBuckets (a : MatrixAdapter) : list (list (nat * nat * Scalar)) :=
  (λ r, bucket row r (gather a)) <$> seq 0 (getGlobalNumRows a).

(** Modelled from the spec: [getCrs(nzval, colind, rowptr, nnz)] of the
    absent adapter, given the sizes of the three caller-provided buffers:
    too small a buffer is a size mismatch, else the row buckets are laid
    out and the global nonzero count is written to [nnz]. *)
Definition getCrs (a : MatrixAdapter) (nzvalSize colindSize rowptrSize : nat)
    : ExtractionFailure + Compressed Scalar :=
  if decide (buffersFit a (getGlobalNumRows a) nzvalSize colindSize rowptrSize) then
    inr (compress col (rowBuckets a) (getGlobalNNZ a))
  else inl SizeMismatch.

(** Modelled from the spec: the columns of the absent [getCcs]: a
    column-bucketing pass over the gathered triples, then each column is
    sorted by row index. *)
Definition colBuckets (a : MatrixAdapter) : list (list (nat * nat * Scalar)) :=
  (λ c, merge_sort byRow (bucket col c (gather a))) <$> seq 0 (getGlobalNumCols a).

(** Modelled from the spec: [getCcs(nzval, rowind, colptr, nnz)] of the
    absent adapter: same shape as [getCrs], column-major, over the sorted
    columns. *)
Definition getCcs (a : MatrixAdapter) (nzvalSize rowindSize colptrSize : nat)
    : ExtractionFailure + Compressed Scalar :=
  if decide (buffersFit a (getGlobalNumCols a) nzvalSize rowindSize colptrSize) then
    inr (compress row (colBuckets a) (getGlobalNNZ a))
  else inl SizeMismatch.

(** ** Reading an extraction back *)

(** The slice [[ptr[k], ptr[k+1])] of the index array, and of the index
    and value arrays taken together. *)
Definition sliceIndices (out : Compressed Scalar) (k : nat) : list nat :=
  let lo := pointers out !!! k in
  let hi := pointers out !!! (k + 1) in
  view (indices out) lo (hi - lo).

Definition slicePairs (out : Compressed Scalar) (k : nat) : list (nat * Scalar) :=
  let lo := pointers out !!! k in
  let hi := pointers out !!! (k + 1) in
  zip (view (indices out) lo (hi - lo)) (view (nzvals out) lo (hi - lo)).

(** The output of [getCrs] (resp. [getCcs]) reinterpreted as
    (row, column, value) triples. *)
Definition triplesOfCrs (out : Compressed Scalar) : list (nat * nat * Scalar) :=
  r ← seq 0 (length (pointers out) - 1); (λ cv, (r, cv.1, cv.2)) <$> slicePairs out r.

Definition triplesOfCcs (out : Compressed Scalar) : list (nat * nat * Scalar) :=
  c ← seq 0 (length (pointers out) - 1); (λ rv, (rv.1, c, rv.2)) <$> slicePairs out c.

End MatrixAdapter.

Arguments MatrixAdapter Scalar : clear implicits.

(** Orderings of index arrays, by position. *)
Definition nonDecreasing (l : list nat) : Prop :=
  ∀ i j x y, l !! i = Some x → l !! j = Some y → i ≤ j → x ≤ y.

Definition strictlyIncreasing (l : list nat) : Prop :=
  ∀ i j x y, l !! i = Some x → l !! j = Some y → i < j → x < y.

End Amesos.

(* ===================================================================== *)
(** * The unit tests of Tpetra_CrsMatrix_Adapter_UnitTests.cpp            *)
(* ===================================================================== *)

Module UnitTests.

Import Tpetra Amesos.

(** [zip] of the test file pairs two views up to the shorter one, which is
    what [zip] on lists does; [contains] is membership. *)
Definition contains {T} `{EqDecision T} (a : list T) (t : T) : bool :=
  bool_decide (t ∈ a).

(** [mat->insertGlobalValues(row, cols, vals)]: the entries handed to the
    matrix, as global triples. *)
Definition insertGlobalValues (r : nat) (cols : list nat) (vals : list Z)
    : list (nat * nat * Z) :=
  (λ cv, (r, cv.1, cv.2)) <$> zip cols vals.

(** The six insertions made by rank 0 for the 6x6 test matrix. *)
Definition inserted : list (nat * nat * Z) :=
  insertGlobalValues 0 [0; 2; 4] [7; -3; -1]%Z ++
  insertGlobalValues 1 [0; 1] [2; 8]%Z ++
  insertGlobalValues 2 [2] [1]%Z ++
  insertGlobalValues 3 [0; 3] [-3; 5]%Z ++
  insertGlobalValues 4 [1; 4] [-1; 4]%Z ++
  insertGlobalValues 5 [3; 5] [-2; 6]%Z.

Definition nrows : nat := 6.

(** A matrix is the test matrix, however its rows are spread over the
    processes, when it is a fill-completed 6x6 matrix holding exactly the
    inserted entries. *)
Definition isTestMatrix (mat : CrsMatrix Z) : Prop :=
  GlobalNumRows mat = nrows ∧ GlobalNumCols mat = nrows ∧
  isFillComplete mat ∧ nonzeros mat ≡ₚ inserted.

(** Modelled from the spec: what [fillComplete] of the absent matrix class
    leaves on a process that owns the global rows [rows], given all the
    entries of the matrix: its local row [i] is the global row [rows !! i]. *)
Definition shareOf (entries : list (nat * nat * Z)) (rows : list nat) : LocalPart Z :=
  mkPart rows
    (i ← seq 0 (length rows);
     (λ t, (i, col t, val t)) <$> filter (λ t, Some (row t) = rows !! i) entries).

(** The test matrix on one, two and three processes, rows dealt out in
    contiguous blocks, and on two processes with interleaved rows. *)
Definition mat1 : CrsMatrix Z :=
  mkMatrix nrows nrows (shareOf inserted <$> [[0; 1; 2; 3; 4; 5]]).

Definition mat2 : CrsMatrix Z :=
  mkMatrix nrows nrows (shareOf inserted <$> [[0; 1; 2]; [3; 4; 5]]).

Definition mat3 : CrsMatrix Z :=
  mkMatrix nrows nrows (shareOf inserted <$> [[0; 1]; [2; 3]; [4; 5]]).

Definition matInterleaved : CrsMatrix Z :=
  mkMatrix nrows nrows (shareOf inserted <$> [[5; 1; 3]; [4; 0; 2]]).

(** The same on two processes whose local storage keeps the entries in
    the reverse of insertion order. *)
Definition matReversed : CrsMatrix Z :=
  mkMatrix nrows nrows (shareOf (reverse inserted) <$> [[3; 4; 5]; [0; 1; 2]]).

Module CRS.

Definition nzvals_test : list Z := [7; -3; -1; 2; 8; 1; -3; 5; -1; 4; -2; 6]%Z.
Definition colind_test : list nat := [0; 2; 4; 0; 1; 2; 0; 3; 1; 4; 3; 5].
Definition rowptr_test : list nat := [0; 3; 5; 6; 8; 10; 12].

(** The body of the loop over the global rows.  [row_nnz] is an unsigned
    difference in the test; it is only ever taken between consecutive
    entries of a non-decreasing [rowptr].  An expected pair that does not
    exist counts as a failed check. *)
Definition rowMatches (out : Compressed Z) (r : nat) : bool :=
  let rp := pointers out !!! r in
  let nrp := pointers out !!! (r + 1) in
  let row_nnz := nrp - rp in
  bool_decide (rp < length (nzvals out)) &&
  bool_decide (rp < length (indices out)) &&
  let expected_pairs := zip (view nzvals_test rp row_nnz) (view colind_test rp row_nnz) in
  let got_pairs := zip (view (nzvals out) rp row_nnz) (view (indices out) rp row_nnz) in
  forallb (λ i, from_option (contains got_pairs) false (expected_pairs !! i))
          (seq 0 row_nnz).

(** The checks made on rank 0 after [adapter->getCrs(nzvals,colind,rowptr,nnz)]. *)
Definition checks (out : Compressed Z) : bool :=
  forallb (rowMatches out) (seq 0 nrows) &&
  bool_decide (pointers out = rowptr_test) &&
  bool_decide (nnz out = 12).

(** The whole test: the buffers are sized by the adapter's own queries. *)
Definition test (mat : CrsMatrix Z) : bool :=
  let adapter := mkAdapter mat in
  match getCrs adapter (getGlobalNNZ adapter) (getGlobalNNZ adapter)
               (Amesos.getGlobalNumRows adapter + 1) with
  | inr out => checks out
  | inl _ => false
  end.

End CRS.

Module CCS.

Definition nzvals_test : list Z := [7; 2; -3; 8; -1; -3; 1; 5; -2; -1; 4; 6]%Z.
Definition rowind_test : list nat := [0; 1; 3; 1; 4; 0; 2; 3; 5; 0; 4; 5].
Definition colptr_test : list nat := [0; 3; 5; 7; 9; 11; 12].

(** The checks made on rank 0 after [adapter->getCcs(nzvals,rowind,colptr,nnz)]. *)
Definition checks (out : Compressed Z) : bool :=
  bool_decide (nzvals out = nzvals_test) &&
  bool_decide (indices out = rowind_test) &&
  bool_decide (pointers out = colptr_test) &&
  bool_decide (nnz out = 12).

(** The whole test; [colptr] is sized by the number of rows, as in the
    test file. *)
Definition test (mat : CrsMatrix Z) : bool :=
  let adapter := mkAdapter mat in
  match getCcs adapter (getGlobalNNZ adapter) (getGlobalNNZ adapter)
               (Amesos.getGlobalNumRows adapter + 1) with
  | inr out => checks out
  | inl _ => false
  end.

End CCS.

(** The matrix of the Initialization and Dimensions tests: every process
    owns [numLocal] consecutive rows of an identity matrix, starting at
    [base = numLocal * rank]. *)
Definition numLocal : nat := 10.

Definition eye (numprocs : nat) : CrsMatrix Z :=
  mkMatrix (numLocal * numprocs) (numLocal * numprocs)
    ((λ rank, let base := numLocal * rank in
              mkPart (seq base numLocal)
                     ((λ i, (i, base + i, 1%Z)) <$> seq 0 numLocal))
     <$> seq 0 numprocs).

(** The Dimensions test: the seven equalities between the matrix's and the
    adapter's answers, on the process of the given rank. *)
Definition Dimensions (mat : CrsMatrix Z) (rank : nat) : bool :=
  let adapter := mkAdapter mat in
  bool_decide (getGlobalNumEntries mat = getGlobalNNZ adapter) &&
  bool_decide (getNodeNumEntries mat rank = getLocalNNZ adapter rank) &&
  bool_decide (Tpetra.getGlobalNumRows mat = Amesos.getGlobalNumRows adapter) &&
  bool_decide (getNodeNumRows mat rank = getLocalNumRows adapter rank) &&
  bool_decide (getNodeNumCols mat rank = getLocalNumCols adapter rank) &&
  bool_decide (Tpetra.getGlobalNumCols mat = Amesos.getGlobalNumCols adapter) &&
  bool_decide (getGlobalMaxNumRowEntries mat = getMaxNNZ adapter).

End UnitTests.

(* ===================================================================== *)
(** * The helper functions of the test file, as they are written          *)
(* ===================================================================== *)

Module TestFile.

(** [zip(a, b)]: an array of [min(a.size(), b.size())] value-initialised
    pairs is allocated and then filled by index, [r[i] = (a[i], b[i])]. *)
Definition zip {T1 T2} `{Inhabited T1, Inhabited T2} (a : list T1) (b : list T2)
    : list (T1 * T2) :=
  let size := min (length a) (length b) in
  let r := replicate size (inhabitant, inhabitant) in
  foldl (λ r i, <[i := (a !!! i, b !!! i)]> r) r (seq 0 size).

(** [std::find(first, last, t)] over the whole array, positions counted
    from [first]: the position of the first element equal to [t], or the
    position [last] (the length) when there is none. *)
Fixpoint std_find {T} `{EqDecision T} (a : list T) (t : T) : nat :=
  match a with
  | [] => 0
  | x :: a' => if decide (x = t) then 0 else S (std_find a' t)
  end.

(** [contains(a, t)]: [std::find(first, last, t) != last]. *)
Definition contains {T} `{EqDecision T} (a : list T) (t : T) : bool :=
  bool_decide (std_find a t ≠ length a).

(** The pairs the CRS test expects in row [r], and the pairs it reads for
    that row out of the arrays it got, both cut at the bounds found in the
    [rowptr] it got. *)
Definition expectedRow (out : Amesos.Compressed Z) (r : nat) : list (Z * nat) :=
  let rp := Amesos.pointers out !!! r in
  let row_nnz := Amesos.pointers out !!! (r + 1) - rp in
  base.zip (Amesos.view UnitTests.CRS.nzvals_test rp row_nnz)
           (Amesos.view UnitTests.CRS.colind_test rp row_nnz).

(** The entry [insertGlobalValues(k, tuple(k), tuple(one))] that the
    Initialization and Dimensions tests insert for the global row [k]. *)
Definition diagonal (k : nat) : nat * nat * Z := (k, k, 1%Z).

Definition gotRow (out : Amesos.Compressed Z) (r : nat) : list (Z * nat) :=
  let rp := Amesos.pointers out !!! r in
  let row_nnz := Amesos.pointers out !!! (r + 1) - rp in
  base.zip (Amesos.view (Amesos.nzvals out) rp row_nnz)
           (Amesos.view (Amesos.indices out) rp row_nnz).

End TestFile.

(* ===================================================================== *)
(** * Properties of Belos::MueLuEpetraPrecOp                              *)
(* ===================================================================== *)

Module BelosProofs.

Import Belos.

Section Properties.

Context {Scalar : Type} (zero : Scalar).
Context {Hierarchy : Type}.
Context (cycle : Hierarchy → list (list Scalar) → nat → list (list Scalar) → bool → list (list Scalar)).

Implicit Types (this : MueLuEpetraPrecOp (Hierarchy := Hierarchy)).
Implicit Types (m : Machine (Scalar := Scalar)).

Lemma filled_all (a : Scalar) (d : list (list Scalar)) :
  Forall (Forall (λ s, s = a)) (filled a d).
Proof.
  unfold filled. apply Forall_fmap, Forall_true. intros column.
  apply Forall_fmap, Forall_true. done.
Qed.

Lemma filled_shape (a : Scalar) (d : list (list Scalar)) :
  length <$> filled a d = length <$> d.
Proof.
  unfold filled. rewrite <- list_fmap_compose. apply list_fmap_ext.
  intros _ column _. simpl. by rewrite length_fmap.
Qed.

Lemma filled_same_shape (a : Scalar) (d1 d2 : list (list Scalar)) :
  length <$> d1 = length <$> d2 → filled a d1 = filled a d2.
Proof.
  revert d2. induction d1 as [|c1 d1 IH]; intros [|c2 d2] Hs; try done.
  simpl in Hs. injection Hs as Hc Hd. unfold filled in *. simpl. f_equal; [|by apply IH].
  clear -Hc. revert c2 Hc. induction c1 as [|? c1 IH]; intros [|? c2] Hc; try done.
  simpl in *. f_equal. apply IH. lia.
Qed.

Lemma putScalar_run (y : nat) (a : Scalar) m dy :
  vectors m !! y = Some dy →
  putScalar y a m = (Returned (), mkMachine (<[y := filled a dy]> (vectors m)) (calls m)).
Proof.
  intros Hy. unfold putScalar. do 2 f_equal.
  apply map_eq. intros k. rewrite lookup_alter, lookup_insert.
  repeat case_decide; try congruence; subst; by rewrite ?Hy.
Qed.

Lemma Apply_NOTRANS_unfold this (x y : nat) m :
  Apply zero cycle this x y NOTRANS m =
  Iterate cycle (Hierarchy_ this) x 1 y true (putScalar y zero m).2.
Proof. reflexivity. Qed.

Lemma Apply_throws this (x y : nat) trans m :
  trans ≠ NOTRANS → Apply zero cycle this x y trans m = (Thrown UnsupportedOperation, m).
Proof. intros Ht. unfold Apply, bind, TEST_FOR_EXCEPTION. by destruct trans. Qed.

Lemma Apply_outcome this (x y : nat) trans m :
  (Apply zero cycle this x y trans m).1 =
  if decide (trans = NOTRANS) then Returned () else Thrown UnsupportedOperation.
Proof. by destruct trans. Qed.

(** C4: with no transpose, [Apply] first sets every entry of [y] to zero,
    keeping its shape, and then makes exactly one call
    [Iterate(x, 1, y, true)] on the wrapped hierarchy, which sees the zeroed
    [y] as its initial guess; the right-hand side it reads is [x] as it is
    after the zeroing (the old [x] unless [x] and [y] are the same vector).
    Whatever [y] held before has no influence on the final machine. *)
Theorem Apply_zeroes_then_iterates_once this (x y : nat) m (dx dy : list (list Scalar)) :
  vectors m !! x = Some dx →
  vectors m !! y = Some dy →
  let y0 := filled zero dy in
  let b := if decide (x = y) then y0 else dx in
  Forall (Forall (λ s, s = zero)) y0 ∧
  length <$> y0 = length <$> dy ∧
  putScalar y zero m = (Returned (), mkMachine (<[y := y0]> (vectors m)) (calls m)) ∧
  Apply zero cycle this x y NOTRANS m =
    Iterate cycle (Hierarchy_ this) x 1 y true (mkMachine (<[y := y0]> (vectors m)) (calls m)) ∧
  Apply zero cycle this x y NOTRANS m =
    (Returned (),
     mkMachine (<[y := cycle (Hierarchy_ this) b 1 y0 true]> (vectors m))
               (calls m ++ [mkCall x 1 y true])) ∧
  ∀ poison : list (list Scalar),
    length <$> poison = length <$> dy →
    Apply zero cycle this x y NOTRANS (mkMachine (<[y := poison]> (vectors m)) (calls m)) =
    Apply zero cycle this x y NOTRANS m.
Proof.
  intros Hx Hy y0 b.
  assert (Hrun : ∀ m1 d1, vectors m1 !! y = Some d1 →
            filled zero d1 = y0 →
            vectors m1 !! x = Some (if decide (x = y) then d1 else dx) →
            Apply zero cycle this x y NOTRANS m1 =
            (Returned (),
             mkMachine (<[y := cycle (Hierarchy_ this) b 1 y0 true]> (vectors m1))
                       (calls m1 ++ [mkCall x 1 y true]))).
  { intros m1 d1 H1 Hf Hx1. rewrite Apply_NOTRANS_unfold, (putScalar_run _ _ _ _ H1).
    unfold Iterate. simpl. rewrite Hf. do 2 f_equal.
    rewrite lookup_insert_eq, lookup_insert. subst b.
    destruct (decide (x = y)) as [->|Hne].
    - rewrite decide_True by done. by rewrite insert_insert_eq.
    - rewrite decide_False by done. rewrite Hx1. by rewrite insert_insert_eq. }
  split; [apply filled_all|]. split; [apply filled_shape|].
  split; [by apply putScalar_run|].
  split.
  { rewrite Apply_NOTRANS_unfold. by rewrite (putScalar_run _ _ _ _ Hy). }
  split.
  { apply (Hrun m dy); [done|done|]. case_decide; by subst; rewrite ?Hy. }
  intros poison Hp.
  rewrite (Hrun (mkMachine (<[y := poison]> (vectors m)) (calls m)) poison); simpl.
  - rewrite (Hrun m dy); [|done|done|case_decide; by subst; rewrite ?Hy].
    by rewrite insert_insert_eq.
  - by rewrite lookup_insert_eq.
  - by apply filled_same_shape.
  - rewrite lookup_insert. destruct (decide (x = y)) as [->|Hne].
    + by rewrite decide_True.
    + by rewrite decide_False.
Qed.

(** C5: with any transpose mode other than no-transpose, [Apply] on
    Epetra vectors throws the unsupported-operation failure, returns
    nothing, calls the hierarchy not at all and leaves every vector as it
    was; through the generic interface the call fails as well, with the
    same failure whenever both operands are Epetra vectors. *)
Theorem Apply_transpose_unsupported this (x y : nat) (gx gy : MultiVec) trans m :
  trans ≠ NOTRANS →
  Apply zero cycle this x y trans m = (Thrown UnsupportedOperation, m) ∧
  Apply_MultiVec zero cycle this (EpetraMultiVec x) (EpetraMultiVec y) trans m =
    (Thrown UnsupportedOperation, m) ∧
  (∃ e, Apply_MultiVec zero cycle this gx gy trans m = (Thrown e, m)) ∧
  Apply zero cycle this x y trans m ≠ Apply zero cycle this x y NOTRANS m.
Proof.
  intros Ht. split; [by apply Apply_throws|]. split; [by apply Apply_throws|]. split.
  - unfold Apply_MultiVec. destruct gx, gy; simpl; eauto using Apply_throws.
  - intros Heq. apply (f_equal fst) in Heq. rewrite !Apply_outcome in Heq.
    rewrite decide_False in Heq by done. done.
Qed.

(** C6: through the generic [Belos::MultiVec] interface both operands are
    downcast; when either downcast fails the call throws the
    interface-mismatch failure and nothing else happens, and that failure
    is not the one signalling an unsupported transpose. *)
Theorem Apply_MultiVec_downcast_failure this (gx gy : MultiVec) trans m :
  dynamic_cast gx = None ∨ dynamic_cast gy = None →
  Apply_MultiVec zero cycle this gx gy trans m = (Thrown InterfaceMismatch, m) ∧
  InterfaceMismatch ≠ UnsupportedOperation.
Proof.
  intros Hcast. split; [|done].
  unfold Apply_MultiVec. destruct gx, gy; simpl in *; try done; by destruct Hcast.
Qed.

(** C10: when either form of [Apply] throws, the machine is exactly as it
    was before the call: no vector, the output vector included, has been
    written (in particular it has not been zeroed) and the hierarchy has
    not been called.  The failure is the unsupported-transpose one, raised
    for a mode other than no-transpose, or the downcast one, raised because
    a downcast failed. *)
Theorem Apply_failure_is_atomic this (x y : nat) (gx gy : MultiVec) trans m (e : Exception) m' :
  Apply zero cycle this x y trans m = (Thrown e, m') ∨
  Apply_MultiVec zero cycle this gx gy trans m = (Thrown e, m') →
  m' = m ∧
  vectors m' = vectors m ∧
  calls m' = calls m ∧
  (e = UnsupportedOperation ∧ trans ≠ NOTRANS ∨
   e = InterfaceMismatch ∧ (dynamic_cast gx = None ∨ dynamic_cast gy = None)).
Proof.
  assert (Hepetra : ∀ px py, Apply zero cycle this px py trans m = (Thrown e, m') →
            m' = m ∧ e = UnsupportedOperation ∧ trans ≠ NOTRANS).
  { intros px py Hthrow. destruct (decide (trans = NOTRANS)) as [->|Ht].
    - discriminate Hthrow.
    - rewrite Apply_throws in Hthrow by done. by injection Hthrow as <- <-. }
  intros [Hthrow|Hthrow].
  - destruct (Hepetra x y Hthrow) as (-> & -> & Ht). eauto 10.
  - unfold Apply_MultiVec in Hthrow.
    destruct gx as [px|], gy as [py|]; simpl in *;
      try (injection Hthrow as <- <-; eauto 10).
    destruct (Hepetra px py Hthrow) as (-> & -> & Ht). eauto 10.
Qed.

End Properties.

(** The theorems at work on the Richardson instance. *)

Lemma Apply_zeroes_then_iterates_once_witness :
  vectors twoVectors !! 0 = Some [[1; 2; 3]%Z] ∧
  vectors twoVectors !! 1 = Some [[99; 98; 97]%Z] ∧
  Apply 0%Z richardson precOp 0 1 NOTRANS twoVectors =
    (Returned (),
     mkMachine (<[1 := richardson 2 [[1; 2; 3]%Z] 1 [[0; 0; 0]%Z] true]> (vectors twoVectors))
               [mkCall 0 1 1 true]).
Proof.
  split; [reflexivity|]. split; [reflexivity|].
  exact (proj1 (proj2 (proj2 (proj2 (proj2
    (Apply_zeroes_then_iterates_once 0%Z richardson precOp 0 1 twoVectors
       [[1; 2; 3]%Z] [[99; 98; 97]%Z] eq_refl eq_refl)))))).
Defined.

Lemma Apply_transpose_unsupported_witness :
  TRANS ≠ NOTRANS ∧
  Apply 0%Z richardson precOp 0 1 TRANS twoVectors = (Thrown UnsupportedOperation, twoVectors).
Proof.
  split; [discriminate|].
  exact (proj1 (Apply_transpose_unsupported 0%Z richardson precOp 0 1
                  (EpetraMultiVec 0) (EpetraMultiVec 1) TRANS twoVectors
                  ltac:(discriminate))).
Defined.

Lemma Apply_MultiVec_downcast_failure_witness :
  (dynamic_cast (EpetraMultiVec 0) = None ∨ dynamic_cast (OtherMultiVec 7) = None) ∧
  Apply_MultiVec 0%Z richardson precOp (EpetraMultiVec 0) (OtherMultiVec 7) NOTRANS twoVectors =
    (Thrown InterfaceMismatch, twoVectors).
Proof.
  split; [right; reflexivity|].
  exact (proj1 (Apply_MultiVec_downcast_failure 0%Z richardson precOp
                  (EpetraMultiVec 0) (OtherMultiVec 7) NOTRANS twoVectors
                  (or_intror eq_refl))).
Defined.

Lemma Apply_failure_is_atomic_witness :
  Apply_MultiVec 0%Z richardson precOp (OtherMultiVec 7) (EpetraMultiVec 1) NOTRANS twoVectors =
    (Thrown InterfaceMismatch, twoVectors) ∧
  vectors twoVectors = vectors twoVectors ∧
  calls twoVectors = calls twoVectors.
Proof.
  split; [reflexivity|].
  pose proof (Apply_failure_is_atomic 0%Z richardson precOp 0 1
                (OtherMultiVec 7) (EpetraMultiVec 1) NOTRANS twoVectors
                InterfaceMismatch twoVectors (or_intror eq_refl)) as (_ & Hv & Hc & _).
  exact (conj Hv Hc).
Defined.

End BelosProofs.

(* ===================================================================== *)
(** * Properties of the extraction                                        *)
(* ===================================================================== *)

Module AmesosProofs.

Import Tpetra Amesos.

(** ** Offsets and slices *)

Lemma length_offsets start sizes : length (offsets start sizes) = S (length sizes).
Proof. revert start. induction sizes as [|n sizes IH]; intros start; simpl; [done|]. by rewrite IH. Qed.

Lemma offsets_lookup start sizes k :
  k ≤ length sizes → offsets start sizes !! k = Some (start + sum_list (take k sizes)).
Proof.
  revert start k. induction sizes as [|n sizes IH]; intros start k Hk; simpl in *.
  - assert (k = 0) as -> by lia. simpl. f_equal. lia.
  - destruct k as [|k]; simpl.
    + f_equal. lia.
    + rewrite IH by lia. f_equal. lia.
Qed.

Lemma offsets_head start sizes : head (offsets start sizes) = Some start.
Proof. by destruct sizes. Qed.

Lemma offsets_last start sizes : last (offsets start sizes) = Some (start + sum_list sizes).
Proof.
  rewrite last_lookup, length_offsets. simpl.
  rewrite offsets_lookup by lia. by rewrite firstn_all.
Qed.

Lemma sum_list_take_le (sizes : list nat) i j :
  i ≤ j → sum_list (take i sizes) ≤ sum_list (take j sizes).
Proof.
  intros Hij. replace j with (i + (j - i)) by lia.
  rewrite <- take_take_drop, sum_list_with_app. lia.
Qed.

Lemma offsets_nonDecreasing start sizes : nonDecreasing (offsets start sizes).
Proof.
  intros i j x y Hi Hj Hij.
  pose proof (lookup_lt_Some _ _ _ Hi) as Hli. pose proof (lookup_lt_Some _ _ _ Hj) as Hlj.
  rewrite length_offsets in Hli, Hlj.
  rewrite offsets_lookup in Hi by lia. rewrite offsets_lookup in Hj by lia.
  injection Hi as <-. injection Hj as <-.
  pose proof (sum_list_take_le sizes i j Hij). lia.
Qed.

Lemma view_fmap {A B} (f : A → B) (l : list A) lo n :
  view (f <$> l) lo n = f <$> view l lo n.
Proof. unfold view. by rewrite fmap_take, fmap_drop. Qed.

Lemma view_join {A} (bs : list (list A)) k b :
  bs !! k = Some b →
  view (mjoin bs) (sum_list (length <$> take k bs)) (length b) = b.
Proof.
  intros Hk. unfold view.
  assert (mjoin bs = mjoin (take k bs) ++ b ++ mjoin (drop (S k) bs)) as ->.
  { by rewrite <- (take_drop_middle bs k b Hk) at 1; rewrite join_app. }
  rewrite drop_app_length' by (by rewrite length_join).
  by rewrite take_app_length.
Qed.

Lemma zip_fmap_same {A B C} (f : A → B) (g : A → C) (l : list A) :
  zip (f <$> l) (g <$> l) = (λ a, (f a, g a)) <$> l.
Proof. induction l as [|a l IH]; simpl; [done|]. by f_equal. Qed.

Lemma offsets_slice_bounds {A} (bs : list (list A)) k b :
  bs !! k = Some b →
  offsets 0 (length <$> bs) !!! k = sum_list (length <$> take k bs) ∧
  offsets 0 (length <$> bs) !!! (k + 1) = sum_list (length <$> take k bs) + length b.
Proof.
  intros Hk. pose proof (lookup_lt_Some _ _ _ Hk) as Hlt.
  split; apply list_lookup_total_correct; rewrite offsets_lookup
    by (rewrite length_fmap; lia); f_equal; simpl.
  - by rewrite fmap_take.
  - rewrite Nat.add_1_r.
    rewrite (take_S_r _ _ (length b)) by (by rewrite list_lookup_fmap, Hk).
    rewrite sum_list_with_app, fmap_take. simpl. lia.
Qed.

Section Slices.

Context {Scalar : Type}.

Implicit Types (bs : list (list (nat * nat * Scalar))) (b : list (nat * nat * Scalar)).

Lemma sliceIndices_compress minor bs count k b :
  bs !! k = Some b → sliceIndices (compress minor bs count) k = minor <$> b.
Proof.
  intros Hk. unfold sliceIndices. simpl.
  destruct (offsets_slice_bounds bs k b Hk) as [-> ->].
  rewrite view_fmap. replace (_ + length b - _) with (length b) by lia.
  by rewrite view_join.
Qed.

Lemma slicePairs_compress minor bs count k b :
  bs !! k = Some b →
  slicePairs (compress minor bs count) k = (λ t, (minor t, val t)) <$> b.
Proof.
  intros Hk. unfold slicePairs. simpl.
  destruct (offsets_slice_bounds bs k b Hk) as [-> ->].
  rewrite !view_fmap. replace (_ + length b - _) with (length b) by lia.
  rewrite view_join by done. apply zip_fmap_same.
Qed.

Lemma zip_views_compress {B C} (f : nat * nat * Scalar → B) (g : nat * nat * Scalar → C)
    bs k b :
  bs !! k = Some b →
  let lo := offsets 0 (length <$> bs) !!! k in
  let hi := offsets 0 (length <$> bs) !!! (k + 1) in
  zip (view (f <$> mjoin bs) lo (hi - lo)) (view (g <$> mjoin bs) lo (hi - lo)) =
  (λ t, (f t, g t)) <$> b.
Proof.
  intros Hk. simpl. destruct (offsets_slice_bounds bs k b Hk) as [-> ->].
  rewrite !view_fmap. replace (_ + length b - _) with (length b) by lia.
  rewrite view_join by done. apply zip_fmap_same.
Qed.

Lemma slice_empty minor bs count k :
  bs !! k = Some [] →
  pointers (compress minor bs count) !!! k = pointers (compress minor bs count) !!! (k + 1).
Proof.
  intros Hk. simpl. destruct (offsets_slice_bounds bs k [] Hk) as [-> ->]. simpl. lia.
Qed.

End Slices.

Lemma join_fmap_bind {A B} (f : A → list B) (l : list A) : mjoin (f <$> l) = l ≫= f.
Proof. induction l as [|a l IH]; csimpl; [done|]. by rewrite IH. Qed.

(** ** The gathered nonzeros of a fill-completed matrix *)

Section Gather.

Context {Scalar : Type}.

Implicit Types (A : CrsMatrix Scalar) (p : LocalPart Scalar).
Implicit Types (t : nat * nat * Scalar) (ts : list (nat * nat * Scalar)).

Lemma triple_eta t : (row t, col t, val t) = t.
Proof. by destruct t as [[? ?] ?]. Qed.

Lemma toGlobal_ok A p (e : nat * nat * Scalar) :
  Forall (λ r, r < GlobalNumRows A) (myGlobalRows p) →
  row e < length (myGlobalRows p) → col e < GlobalNumCols A →
  ∃ t, toGlobal p e = Some t ∧ row t < GlobalNumRows A ∧ col t < GlobalNumCols A.
Proof.
  intros Hrows Hr Hc. unfold toGlobal.
  destruct (lookup_lt_is_Some_2 _ _ Hr) as [r Hlook]. rewrite Hlook. simpl.
  eexists. split; [done|]. split; [|done].
  unfold row at 1. simpl. eapply (Forall_lookup_1 _ _ _ _ Hrows Hlook).
Qed.

Lemma globalTriples_ok A p :
  partOk A p →
  length (globalTriples p) = length (localEntries p) ∧
  Forall (λ t, row t < GlobalNumRows A ∧ col t < GlobalNumCols A) (globalTriples p).
Proof.
  intros [Hrows Hentries]. unfold globalTriples.
  induction Hentries as [|e es [Hr Hc] _ IH]; csimpl; [done|].
  destruct (toGlobal_ok A p e Hrows Hr Hc) as (t & -> & Ht). csimpl.
  destruct IH as [-> IH]. split; [done|]. by constructor.
Qed.

Lemma nonzeros_in_range A :
  Forall (partOk A) (parts A) →
  Forall (λ t, row t < GlobalNumRows A ∧ col t < GlobalNumCols A) (nonzeros A).
Proof.
  intros Hparts. unfold nonzeros. apply Forall_bind.
  eapply Forall_impl; [exact Hparts|]. intros p Hp. by apply globalTriples_ok.
Qed.

Lemma length_nonzeros A :
  Forall (partOk A) (parts A) → length (nonzeros A) = getGlobalNumEntries A.
Proof.
  unfold nonzeros, getGlobalNumEntries. generalize (parts A). intros ps Hps.
  induction Hps as [|p ps Hp _ IH]; csimpl; [done|].
  rewrite length_app, IH. by destruct (globalTriples_ok A p Hp) as [-> _].
Qed.

(** ** Bucketing is a rearrangement *)

Lemma bucket_split (major : nat * nat * Scalar → nat) n ts :
  filter (λ t, major t < n) ts ++ bucket major n ts ≡ₚ filter (λ t, major t < S n) ts.
Proof.
  unfold bucket. induction ts as [|t ts IH]; [done|].
  rewrite !filter_cons. repeat case_decide; try lia; simpl.
  - by rewrite IH.
  - by rewrite <- Permutation_middle, IH.
  - done.
Qed.

Lemma buckets_Permutation (arrange : list (nat * nat * Scalar) → list (nat * nat * Scalar))
    (major : nat * nat * Scalar → nat) n ts :
  (∀ l, arrange l ≡ₚ l) →
  Forall (λ t, major t < n) ts →
  mjoin ((λ k, arrange (bucket major k ts)) <$> seq 0 n) ≡ₚ ts.
Proof.
  intros Harr Hts.
  assert (Hn : mjoin ((λ k, arrange (bucket major k ts)) <$> seq 0 n)
               ≡ₚ filter (λ t, major t < n) ts).
  { clear Hts. induction n as [|n IH].
    - simpl. induction ts as [|t ts IHts]; [done|].
      rewrite filter_cons. case_decide; [lia|done].
    - rewrite seq_S, fmap_app, join_app, IH. simpl.
      rewrite app_nil_r, Harr. apply bucket_split. }
  rewrite Hn. clear Hn. induction Hts as [|t ts Ht _ IH]; [done|].
  rewrite filter_cons. case_decide; [|done]. by rewrite IH.
Qed.

Lemma bucket_lookup (arrange : list (nat * nat * Scalar) → list (nat * nat * Scalar))
    (major : nat * nat * Scalar → nat) n ts k :
  k < n →
  ((λ k, arrange (bucket major k ts)) <$> seq 0 n) !! k = Some (arrange (bucket major k ts)).
Proof. intros Hk. by rewrite list_lookup_fmap, lookup_seq_lt. Qed.

(** ** Sorting a column by row index *)

#[local] Instance byRow_total : Total (byRow (Scalar := Scalar)).
Proof. intros t u. unfold byRow. lia. Qed.

#[local] Instance byRow_transitive : Transitive (byRow (Scalar := Scalar)).
Proof. intros t u v. unfold byRow. lia. Qed.

Lemma sorted_rows_strict ts :
  StronglySorted byRow ts → NoDup (row <$> ts) →
  StronglySorted (λ t u, row t < row u) ts.
Proof.
  induction 1 as [|t ts _ IH Hall]; intros Hnd; csimpl in *; [constructor|].
  apply NoDup_cons in Hnd as [Hnotin Hnd]. constructor; [by apply IH|].
  apply Forall_forall. intros u Hu.
  rewrite Forall_forall in Hall. specialize (Hall u Hu). unfold byRow in Hall.
  assert (row t ≠ row u); [|lia].
  intros Heq. apply Hnotin. rewrite Heq. by apply list_elem_of_fmap_2.
Qed.

Lemma bucket_rows_NoDup ts c :
  NoDup (position <$> ts) → NoDup (row <$> bucket col c ts).
Proof.
  unfold bucket. induction ts as [|t ts IH]; csimpl; intros Hnd; [constructor|].
  apply NoDup_cons in Hnd as [Hnotin Hnd]. rewrite filter_cons.
  case_decide as Hc; [|by apply IH]. csimpl. apply NoDup_cons. split; [|by apply IH].
  intros (u & Hrow & Hu)%list_elem_of_fmap. apply list_elem_of_filter in Hu as [Hcu Hu].
  apply Hnotin. apply list_elem_of_fmap. exists u. split; [|done].
  unfold position. congruence.
Qed.

Lemma merge_sort_strict ts c :
  NoDup (position <$> ts) →
  StronglySorted (λ t u, row t < row u) (merge_sort byRow (bucket col c ts)).
Proof.
  intros Hnd. apply sorted_rows_strict.
  - apply StronglySorted_merge_sort; apply _.
  - rewrite merge_sort_Permutation. by apply bucket_rows_NoDup.
Qed.

Lemma merge_sort_rows_strict ts c :
  NoDup (position <$> ts) →
  StronglySorted lt (row <$> merge_sort byRow (bucket col c ts)).
Proof.
  intros Hnd.
  by apply (StronglySorted_fmap row (λ t u, row t < row u)), merge_sort_strict.
Qed.

End Gather.

Lemma StronglySorted_lt_strictlyIncreasing (l : list nat) :
  StronglySorted lt l → strictlyIncreasing l.
Proof.
  induction 1 as [|x l _ IH Hall]; intros i j a b Hi Hj Hij; [done|].
  destruct j as [|j]; [lia|]. simpl in Hj. destruct i as [|i]; simpl in Hi.
  - injection Hi as <-. rewrite Forall_forall in Hall.
    apply Hall. by eapply list_elem_of_lookup_2.
  - eapply (IH i j); [done|done|lia].
Qed.

(** ** What the two extractions return *)

Section Extraction.

Context {Scalar : Type}.

Implicit Types (a : MatrixAdapter Scalar) (out : Compressed Scalar).

Lemma getCrs_fit a s1 s2 s3 :
  buffersFit a (getGlobalNumRows a) s1 s2 s3 →
  getCrs a s1 s2 s3 = inr (compress col (rowBuckets a) (getGlobalNNZ a)).
Proof. intros Hfit. unfold getCrs. by rewrite decide_True. Qed.

Lemma getCcs_fit a s1 s2 s3 :
  buffersFit a (getGlobalNumCols a) s1 s2 s3 →
  getCcs a s1 s2 s3 = inr (compress row (colBuckets a) (getGlobalNNZ a)).
Proof. intros Hfit. unfold getCcs. by rewrite decide_True. Qed.

Lemma length_rowBuckets a : length (rowBuckets a) = getGlobalNumRows a.
Proof. unfold rowBuckets. by rewrite length_fmap, length_seq. Qed.

Lemma length_colBuckets a : length (colBuckets a) = getGlobalNumCols a.
Proof. unfold colBuckets. by rewrite length_fmap, length_seq. Qed.

Lemma rowBuckets_lookup a r :
  r < getGlobalNumRows a → rowBuckets a !! r = Some (bucket row r (gather a)).
Proof. intros Hr. unfold rowBuckets. by rewrite list_lookup_fmap, lookup_seq_lt. Qed.

Lemma colBuckets_lookup a c :
  c < getGlobalNumCols a →
  colBuckets a !! c = Some (merge_sort byRow (bucket col c (gather a))).
Proof. intros Hc. unfold colBuckets. by rewrite list_lookup_fmap, lookup_seq_lt. Qed.

Lemma rowBuckets_Permutation a :
  isFillComplete (mat_ a) → mjoin (rowBuckets a) ≡ₚ nonzeros (mat_ a).
Proof.
  intros [Hparts _]. unfold rowBuckets.
  apply (buckets_Permutation (λ l, l)); [done|].
  eapply Forall_impl; [by apply nonzeros_in_range|]. by intros t [? ?].
Qed.

Lemma colBuckets_Permutation a :
  isFillComplete (mat_ a) → mjoin (colBuckets a) ≡ₚ nonzeros (mat_ a).
Proof.
  intros [Hparts _]. unfold colBuckets.
  apply (buckets_Permutation (merge_sort byRow)); [apply merge_sort_Permutation|].
  eapply Forall_impl; [by apply nonzeros_in_range|]. by intros t [? ?].
Qed.

Lemma slicePairs_getCrs a r :
  r < getGlobalNumRows a →
  slicePairs (compress col (rowBuckets a) (getGlobalNNZ a)) r = rowNonzeros (mat_ a) r.
Proof. intros Hr. by rewrite (slicePairs_compress _ _ _ _ _ (rowBuckets_lookup a r Hr)). Qed.

Lemma slicePairs_getCcs a c :
  c < getGlobalNumCols a →
  slicePairs (compress row (colBuckets a) (getGlobalNNZ a)) c =
  (λ t, (row t, val t)) <$> merge_sort byRow (bucket col c (gather a)).
Proof. intros Hc. by rewrite (slicePairs_compress _ _ _ _ _ (colBuckets_lookup a c Hc)). Qed.

Lemma triplesOfCrs_buckets a :
  triplesOfCrs (compress col (rowBuckets a) (getGlobalNNZ a)) = mjoin (rowBuckets a).
Proof.
  unfold triplesOfCrs. simpl. rewrite length_offsets, length_fmap, length_rowBuckets.
  replace (S (getGlobalNumRows a) - 1) with (getGlobalNumRows a) by lia.
  unfold rowBuckets at 2. rewrite join_fmap_bind. apply Forall_bind_ext, Forall_seq.
  intros r [_ Hr]. simpl in Hr. rewrite slicePairs_getCrs by done.
  unfold rowNonzeros, bucket, gather. rewrite <- list_fmap_compose.
  rewrite <- (list_fmap_id (filter _ _)) at 2. apply Forall_fmap_ext, Forall_forall.
  intros t [<- _]%list_elem_of_filter. simpl. apply triple_eta.
Qed.

Lemma triplesOfCcs_buckets a :
  triplesOfCcs (compress row (colBuckets a) (getGlobalNNZ a)) = mjoin (colBuckets a).
Proof.
  unfold triplesOfCcs. simpl. rewrite length_offsets, length_fmap, length_colBuckets.
  replace (S (getGlobalNumCols a) - 1) with (getGlobalNumCols a) by lia.
  unfold colBuckets at 2. rewrite join_fmap_bind. apply Forall_bind_ext, Forall_seq.
  intros c [_ Hc]. simpl in Hc. rewrite slicePairs_getCcs by done.
  rewrite <- list_fmap_compose.
  rewrite <- (list_fmap_id (merge_sort _ _)) at 2. apply Forall_fmap_ext, Forall_forall.
  intros t Ht. rewrite merge_sort_Permutation in Ht.
  apply list_elem_of_filter in Ht as [<- _]. simpl. apply triple_eta.
Qed.

Lemma pointers_compress (minor : nat * nat * Scalar → nat)
    (buckets : list (list (nat * nat * Scalar))) count :
  nonDecreasing (pointers (compress minor buckets count)) ∧
  head (pointers (compress minor buckets count)) = Some 0 ∧
  last (pointers (compress minor buckets count)) = Some (length (mjoin buckets)) ∧
  length (pointers (compress minor buckets count)) = length buckets + 1.
Proof.
  simpl. split; [apply offsets_nonDecreasing|]. split; [apply offsets_head|].
  split; [by rewrite offsets_last, length_join|].
  rewrite length_offsets, length_fmap. lia.
Qed.

(** C1: on a fill-completed matrix and with buffers that fit, [getCrs]
    returns arrays which, read back as (row, column, value) triples, are a
    rearrangement of the matrix's nonzeros; and for every global row [r]
    the slice [[rowptr[r], rowptr[r+1])] of (colind, values) is a
    rearrangement of the (column, value) pairs of row [r]. *)
Theorem getCrs_nonzero_multiset a (nzvalSize colindSize rowptrSize : nat) :
  isFillComplete (mat_ a) →
  buffersFit a (getGlobalNumRows a) nzvalSize colindSize rowptrSize →
  ∃ out, getCrs a nzvalSize colindSize rowptrSize = inr out ∧
         triplesOfCrs out ≡ₚ nonzeros (mat_ a) ∧
         ∀ r, r < getGlobalNumRows a → slicePairs out r ≡ₚ rowNonzeros (mat_ a) r.
Proof.
  intros Hfc Hfit. eexists. split; [by apply getCrs_fit|]. split.
  - rewrite triplesOfCrs_buckets. by apply rowBuckets_Permutation.
  - intros r Hr. by rewrite slicePairs_getCrs.
Qed.

(** C2: on a fill-completed matrix and with buffers that fit, [getCcs]
    returns arrays which read back as a rearrangement of the matrix's
    nonzeros; for every global column [c] the slice
    [[colptr[c], colptr[c+1])] of (rowind, values) is a rearrangement of the
    (row, value) pairs of column [c], its row indices are strictly
    increasing, and a column without nonzeros has an empty slice with
    [colptr[c] = colptr[c+1]]. *)
Theorem getCcs_columns_sorted a (nzvalSize rowindSize colptrSize : nat) :
  isFillComplete (mat_ a) →
  buffersFit a (getGlobalNumCols a) nzvalSize rowindSize colptrSize →
  ∃ out, getCcs a nzvalSize rowindSize colptrSize = inr out ∧
         triplesOfCcs out ≡ₚ nonzeros (mat_ a) ∧
         ∀ c, c < getGlobalNumCols a →
              slicePairs out c ≡ₚ colNonzeros (mat_ a) c ∧
              sliceIndices out c = (slicePairs out c).*1 ∧
              strictlyIncreasing (sliceIndices out c) ∧
              (colNonzeros (mat_ a) c = [] →
               slicePairs out c = [] ∧ pointers out !!! c = pointers out !!! (c + 1)).
Proof.
  intros Hfc Hfit. eexists. split; [by apply getCcs_fit|]. split.
  - rewrite triplesOfCcs_buckets. by apply colBuckets_Permutation.
  - intros c Hc. pose proof (colBuckets_lookup a c Hc) as Hlook.
    rewrite slicePairs_getCcs by done.
    rewrite (sliceIndices_compress _ _ _ _ _ Hlook).
    split; [|split; [|split]].
    + unfold colNonzeros, bucket, gather. by rewrite merge_sort_Permutation.
    + rewrite <- list_fmap_compose. done.
    + apply StronglySorted_lt_strictlyIncreasing, merge_sort_rows_strict.
      by destruct Hfc.
    + intros Hempty. apply fmap_nil_inv in Hempty.
      assert (merge_sort byRow (bucket col c (gather a)) = []) as Hnil.
      { apply Permutation_nil_r. rewrite merge_sort_Permutation.
        unfold bucket, gather. by rewrite Hempty. }
      split; [by rewrite Hnil|].
      apply slice_empty. by rewrite Hlook, Hnil.
Qed.

(** C8: on a fill-completed matrix with any number of processes, the
    [rowptr] returned by [getCrs] and the [colptr] returned by [getCcs]
    are non-decreasing, start at 0 and end at the total nonzero count,
    which is also what is written to [nnz]; [rowptr] has one entry more
    than there are global rows and [colptr] one more than there are global
    columns. *)
Theorem pointers_shape a (s1 s2 s3 s1' s2' s3' : nat) :
  isFillComplete (mat_ a) →
  buffersFit a (getGlobalNumRows a) s1 s2 s3 →
  buffersFit a (getGlobalNumCols a) s1' s2' s3' →
  (∃ out, getCrs a s1 s2 s3 = inr out ∧
          nonDecreasing (pointers out) ∧
          head (pointers out) = Some 0 ∧
          last (pointers out) = Some (getGlobalNNZ a) ∧
          nnz out = getGlobalNNZ a ∧
          length (pointers out) = getGlobalNumRows a + 1) ∧
  (∃ out, getCcs a s1' s2' s3' = inr out ∧
          nonDecreasing (pointers out) ∧
          head (pointers out) = Some 0 ∧
          last (pointers out) = Some (getGlobalNNZ a) ∧
          nnz out = getGlobalNNZ a ∧
          length (pointers out) = getGlobalNumCols a + 1).
Proof.
  intros Hfc Hrows Hcols.
  assert (Hcount : length (nonzeros (mat_ a)) = getGlobalNNZ a).
  { apply length_nonzeros. by destruct Hfc. }
  split; eexists; (split; [by (apply getCrs_fit || apply getCcs_fit)|]).
  - destruct (pointers_compress col (rowBuckets a) (getGlobalNNZ a)) as (Hm & Hh & Hl & Hlen).
    rewrite (rowBuckets_Permutation a Hfc), Hcount in Hl.
    rewrite length_rowBuckets in Hlen. done.
  - destruct (pointers_compress row (colBuckets a) (getGlobalNNZ a)) as (Hm & Hh & Hl & Hlen).
    rewrite (colBuckets_Permutation a Hfc), Hcount in Hl.
    rewrite length_colBuckets in Hlen. done.
Qed.

(** The global nonzero count is the sum of the local ones. *)
Lemma getGlobalNNZ_sum_local a :
  getGlobalNNZ a = sum_list (getLocalNNZ a <$> seq 0 (length (parts (mat_ a)))).
Proof.
  unfold getGlobalNNZ, getGlobalNumEntries, getLocalNNZ, getNodeNumEntries.
  f_equal. apply list_eq. intros i. rewrite !list_lookup_fmap.
  destruct (decide (i < length (parts (mat_ a)))) as [Hi|Hi].
  - rewrite lookup_seq_lt by done. simpl.
    destruct (lookup_lt_is_Some_2 _ _ Hi) as [p ->]. done.
  - rewrite lookup_seq_ge by lia. by rewrite lookup_ge_None_2 by lia.
Qed.

(** ** The result does not depend on how the matrix is distributed *)

Lemma bucket_length_Permutation (major : nat * nat * Scalar → nat) k
    (ts ts' : list (nat * nat * Scalar)) :
  ts ≡ₚ ts' → length (bucket major k ts) = length (bucket major k ts').
Proof. unfold bucket. by intros ->. Qed.

#[local] Instance rowBefore_antisymm :
  AntiSymm (=) (λ t u : nat * nat * Scalar, row t < row u).
Proof. intros t u ? ?. lia. Qed.

Lemma sorted_bucket_unique (ts ts' : list (nat * nat * Scalar)) c :
  ts ≡ₚ ts' → NoDup (position <$> ts) →
  merge_sort byRow (bucket col c ts) = merge_sort byRow (bucket col c ts').
Proof.
  intros Hperm Hnd.
  apply (StronglySorted_unique (λ t u : nat * nat * Scalar, row t < row u)).
  - by apply merge_sort_strict.
  - apply merge_sort_strict. by rewrite <- Hperm.
  - rewrite !merge_sort_Permutation. unfold bucket. by rewrite Hperm.
Qed.

Lemma rowBuckets_sizes_deterministic a a' :
  getGlobalNumRows a = getGlobalNumRows a' → gather a ≡ₚ gather a' →
  length <$> rowBuckets a = length <$> rowBuckets a'.
Proof.
  intros Hn Hperm. unfold rowBuckets. rewrite <- !list_fmap_compose, Hn.
  apply list_fmap_ext. intros _ r _. simpl. by apply bucket_length_Permutation.
Qed.

Lemma colBuckets_deterministic a a' :
  getGlobalNumCols a = getGlobalNumCols a' → gather a ≡ₚ gather a' →
  NoDup (position <$> gather a) →
  colBuckets a = colBuckets a'.
Proof.
  intros Hn Hperm Hnd. unfold colBuckets. rewrite Hn.
  apply list_fmap_ext. intros _ c _. by apply sorted_bucket_unique.
Qed.

Lemma getGlobalNNZ_deterministic a a' :
  Forall (partOk (mat_ a)) (parts (mat_ a)) →
  Forall (partOk (mat_ a')) (parts (mat_ a')) →
  gather a ≡ₚ gather a' → getGlobalNNZ a = getGlobalNNZ a'.
Proof.
  intros Ha Ha' Hperm. unfold getGlobalNNZ.
  rewrite <- !length_nonzeros by done. unfold gather in Hperm. by rewrite Hperm.
Qed.

(** Two fill-completed matrices of the same dimensions holding the same
    nonzeros, however distributed, yield the same [rowptr] and the very
    same compressed-column arrays. *)
Lemma extraction_deterministic a a' :
  isFillComplete (mat_ a) → isFillComplete (mat_ a') →
  getGlobalNumRows a = getGlobalNumRows a' →
  getGlobalNumCols a = getGlobalNumCols a' →
  nonzeros (mat_ a) ≡ₚ nonzeros (mat_ a') →
  pointers (compress col (rowBuckets a) (getGlobalNNZ a)) =
    pointers (compress col (rowBuckets a') (getGlobalNNZ a')) ∧
  compress row (colBuckets a) (getGlobalNNZ a) =
    compress row (colBuckets a') (getGlobalNNZ a').
Proof.
  intros [Hp Hnd] [Hp' _] Hrows Hcols Hperm. split.
  - simpl. f_equal. by apply rowBuckets_sizes_deterministic.
  - rewrite (colBuckets_deterministic a a') by done.
    by rewrite (getGlobalNNZ_deterministic a a').
Qed.

End Extraction.

(** ** The 6x6 test matrix *)

Section TestMatrix.

Import UnitTests.

Lemma forallb_pointwise {A} (f g : A → bool) (l : list A) :
  Forall (λ x, f x = g x) l → forallb f l = forallb g l.
Proof. induction 1 as [|x l Hx _ IH]; simpl; [done|]. by rewrite Hx, IH. Qed.

Lemma rowMatches_rearranged (out out' : Compressed Z) r :
  pointers out = pointers out' →
  length (nzvals out) = length (nzvals out') →
  length (indices out) = length (indices out') →
  (let rp := pointers out' !!! r in
   let row_nnz := pointers out' !!! (r + 1) - rp in
   zip (view (nzvals out) rp row_nnz) (view (indices out) rp row_nnz) ≡ₚ
   zip (view (nzvals out') rp row_nnz) (view (indices out') rp row_nnz)) →
  CRS.rowMatches out r = CRS.rowMatches out' r.
Proof.
  intros Hp Hv Hi Hperm. unfold CRS.rowMatches. rewrite Hp, Hv, Hi. f_equal.
  apply forallb_pointwise, Forall_forall. intros i _.
  destruct (_ !! i) as [e|]; simpl; [|done].
  unfold contains. apply bool_decide_ext. simpl in Hperm. by rewrite Hperm.
Qed.

(** The arrays [getCrs] returns for any distribution of the test matrix
    pass the checks of the CRS test as soon as those for one distribution
    of it do. *)
Lemma CRS_checks_deterministic (a a' : MatrixAdapter Z) :
  isFillComplete (mat_ a) → isFillComplete (mat_ a') →
  Amesos.getGlobalNumRows a = nrows → Amesos.getGlobalNumRows a' = nrows →
  Amesos.getGlobalNumCols a = Amesos.getGlobalNumCols a' →
  nonzeros (mat_ a) ≡ₚ nonzeros (mat_ a') →
  CRS.checks (compress col (rowBuckets a) (getGlobalNNZ a)) =
  CRS.checks (compress col (rowBuckets a') (getGlobalNNZ a')).
Proof.
  intros Hfc Hfc' Hn Hn' Hcols Hperm.
  destruct (extraction_deterministic a a' Hfc Hfc' ltac:(congruence) Hcols Hperm)
    as [Hptr _].
  assert (Hnnz : getGlobalNNZ a = getGlobalNNZ a').
  { apply getGlobalNNZ_deterministic; [by destruct Hfc|by destruct Hfc'|done]. }
  unfold CRS.checks. rewrite Hptr. f_equal; [f_equal|by rewrite Hnnz].
  apply forallb_pointwise, Forall_seq. intros r [_ Hr]. simpl in Hr.
  apply rowMatches_rearranged; [done|..].
  - simpl. rewrite !length_fmap.
    by rewrite (rowBuckets_Permutation a Hfc), (rowBuckets_Permutation a' Hfc'), Hperm.
  - simpl. rewrite !length_fmap.
    by rewrite (rowBuckets_Permutation a Hfc), (rowBuckets_Permutation a' Hfc'), Hperm.
  - rewrite <- Hptr. simpl.
    rewrite (zip_views_compress val col (rowBuckets a) r _
               (rowBuckets_lookup a r ltac:(lia))).
    simpl in Hptr. rewrite Hptr.
    rewrite (zip_views_compress val col (rowBuckets a') r _
               (rowBuckets_lookup a' r ltac:(lia))).
    unfold bucket, gather. by rewrite Hperm.
Qed.

Lemma mat1_isTestMatrix : isTestMatrix mat1.
Proof. refine (bool_decide_unpack _ _); vm_compute; exact I. Qed.

(** C3: for the 6x6 test matrix with its 12 nonzeros, however its rows are
    distributed, [getCrs] yields [rowptr = [0,3,5,6,8,10,12]] and reports
    [nnz = 12], and [getCcs] yields [colptr = [0,3,5,7,9,11,12]] with
    [rowind] strictly increasing in every column, column 0 holding the
    rows [0,1,3]; both unit tests pass. *)
Theorem test_matrix_extraction (mat : CrsMatrix Z) :
  isTestMatrix mat →
  getGlobalNNZ (mkAdapter mat) = 12 ∧
  Amesos.getGlobalNumRows (mkAdapter mat) + 1 = 7 ∧
  (∃ out, getCrs (mkAdapter mat) 12 12 7 = inr out ∧
          pointers out = [0; 3; 5; 6; 8; 10; 12] ∧
          nnz out = 12 ∧
          CRS.checks out = true) ∧
  (∃ out, getCcs (mkAdapter mat) 12 12 7 = inr out ∧
          pointers out = [0; 3; 5; 7; 9; 11; 12] ∧
          indices out = [0; 1; 3; 1; 4; 0; 2; 3; 5; 0; 4; 5] ∧
          nzvals out = [7; 2; -3; 8; -1; -3; 1; 5; -2; -1; 4; 6]%Z ∧
          nnz out = 12 ∧
          (∀ c, c < 6 → strictlyIncreasing (sliceIndices out c)) ∧
          sliceIndices out 0 = [0; 1; 3]) ∧
  CRS.test mat = true ∧
  CCS.test mat = true.
Proof.
  intros (Hrows & Hcols & Hfc & Hperm).
  destruct mat1_isTestMatrix as (Hrows1 & Hcols1 & Hfc1 & Hperm1).
  set (a := mkAdapter mat). set (a1 := mkAdapter mat1).
  assert (Hnz : nonzeros (mat_ a) ≡ₚ nonzeros (mat_ a1)) by (simpl; by rewrite Hperm, Hperm1).
  assert (Hr : Amesos.getGlobalNumRows a = nrows) by done.
  assert (Hc : Amesos.getGlobalNumCols a = Amesos.getGlobalNumCols a1)
    by (unfold Amesos.getGlobalNumCols, Tpetra.getGlobalNumCols; simpl; congruence).
  assert (Hnnz : getGlobalNNZ a = 12).
  { rewrite (getGlobalNNZ_deterministic a a1); [done|by destruct Hfc|by destruct Hfc1|done]. }
  assert (Hr1 : Amesos.getGlobalNumRows a1 = nrows) by done.
  destruct (extraction_deterministic a a1 Hfc Hfc1 ltac:(congruence) Hc Hnz) as [Hptr Hccs].
  pose proof (CRS_checks_deterministic a a1 Hfc Hfc1 Hr Hr1 Hc Hnz) as Hchk.
  assert (Hfit : buffersFit a (Amesos.getGlobalNumRows a) 12 12 7).
  { unfold buffersFit. rewrite Hnnz, Hr. unfold nrows. lia. }
  assert (Hfit' : buffersFit a (Amesos.getGlobalNumCols a) 12 12 7).
  { unfold buffersFit. rewrite Hnnz, Hc. vm_compute. lia. }
  assert (Hcrs : ∃ out, getCrs a 12 12 7 = inr out ∧
            pointers out = [0; 3; 5; 6; 8; 10; 12] ∧ nnz out = 12 ∧ CRS.checks out = true).
  { eexists. split; [by apply getCrs_fit|]. rewrite Hchk, Hptr. by vm_compute. }
  assert (Hccs' : ∃ out, getCcs a 12 12 7 = inr out ∧
            CCS.checks out = true ∧
            (∀ c, c < 6 → strictlyIncreasing (sliceIndices out c)) ∧
            sliceIndices out 0 = [0; 1; 3]).
  { eexists. split; [by apply getCcs_fit|]. rewrite Hccs.
    split; [by vm_compute|]. split; [|by vm_compute].
    intros c Hlt. apply StronglySorted_lt_strictlyIncreasing.
    do 6 (destruct c as [|c]; [refine (bool_decide_unpack _ _); vm_compute; exact I|]). lia. }
  split; [done|]. split; [by rewrite Hr|]. split; [done|].
  destruct Hcrs as (out & Hout & Hcrs). destruct Hccs' as (out' & Hout' & Hck & Hinc & Hcol0).
  split; [|split].
  - exists out'. split; [done|].
    unfold CCS.checks in Hck.
    apply andb_prop in Hck as [Hck H4]. apply andb_prop in Hck as [Hck H3].
    apply andb_prop in Hck as [H1 H2].
    apply bool_decide_eq_true in H1, H2, H3, H4. done.
  - unfold CRS.test. fold a. rewrite Hnnz, Hr. simpl. rewrite Hout. by destruct Hcrs as (_ & _ & ?).
  - unfold CCS.test. fold a. rewrite Hnnz, Hr. simpl. by rewrite Hout'.
Qed.

End TestMatrix.

(** Tactic: settle a decidable closed proposition by evaluation. *)
Ltac by_evaluation := refine (bool_decide_unpack _ _); vm_compute; exact I.

(** The theorems at work on the test matrix with interleaved rows. *)

Lemma getCrs_nonzero_multiset_witness :
  isFillComplete UnitTests.matInterleaved ∧
  buffersFit (mkAdapter UnitTests.matInterleaved) 6 12 12 7 ∧
  ∃ out, getCrs (mkAdapter UnitTests.matInterleaved) 12 12 7 = inr out ∧
         triplesOfCrs out ≡ₚ nonzeros UnitTests.matInterleaved ∧
         ∀ r, r < 6 → slicePairs out r ≡ₚ rowNonzeros UnitTests.matInterleaved r.
Proof.
  split; [by_evaluation|]. split; [by_evaluation|].
  apply (getCrs_nonzero_multiset (mkAdapter UnitTests.matInterleaved) 12 12 7); by_evaluation.
Defined.

Lemma getCcs_columns_sorted_witness :
  isFillComplete UnitTests.matInterleaved ∧
  buffersFit (mkAdapter UnitTests.matInterleaved) 6 12 12 7 ∧
  ∃ out, getCcs (mkAdapter UnitTests.matInterleaved) 12 12 7 = inr out ∧
         triplesOfCcs out ≡ₚ nonzeros UnitTests.matInterleaved ∧
         ∀ c, c < 6 →
              slicePairs out c ≡ₚ colNonzeros UnitTests.matInterleaved c ∧
              sliceIndices out c = (slicePairs out c).*1 ∧
              strictlyIncreasing (sliceIndices out c) ∧
              (colNonzeros UnitTests.matInterleaved c = [] →
               slicePairs out c = [] ∧ pointers out !!! c = pointers out !!! (c + 1)).
Proof.
  split; [by_evaluation|]. split; [by_evaluation|].
  apply (getCcs_columns_sorted (mkAdapter UnitTests.matInterleaved) 12 12 7); by_evaluation.
Defined.

Lemma pointers_shape_witness :
  isFillComplete UnitTests.mat3 ∧
  buffersFit (mkAdapter UnitTests.mat3) 6 12 12 7 ∧
  ∃ out, getCrs (mkAdapter UnitTests.mat3) 12 12 7 = inr out ∧
         nonDecreasing (pointers out) ∧
         head (pointers out) = Some 0 ∧
         last (pointers out) = Some 12 ∧
         nnz out = 12 ∧
         length (pointers out) = 6 + 1.
Proof.
  split; [by_evaluation|]. split; [by_evaluation|].
  apply (pointers_shape (mkAdapter UnitTests.mat3) 12 12 7 12 12 7); by_evaluation.
Defined.

Lemma test_matrix_extraction_witness :
  UnitTests.isTestMatrix UnitTests.matReversed ∧
  (∃ out, getCrs (mkAdapter UnitTests.matReversed) 12 12 7 = inr out ∧
          pointers out = [0; 3; 5; 6; 8; 10; 12] ∧
          nnz out = 12 ∧
          UnitTests.CRS.checks out = true).
Proof.
  split; [by_evaluation|].
  apply (test_matrix_extraction UnitTests.matReversed). by_evaluation.
Defined.

(** The order inside a row of [getCrs] follows the local storage: the same
    matrix stored differently yields a different [colind]. *)
Lemma getCrs_row_order_varies :
  nonzeros UnitTests.mat1 ≡ₚ nonzeros UnitTests.matReversed ∧
  ∃ out out', getCrs (mkAdapter UnitTests.mat1) 12 12 7 = inr out ∧
              getCrs (mkAdapter UnitTests.matReversed) 12 12 7 = inr out' ∧
              pointers out = pointers out' ∧
              indices out ≠ indices out'.
Proof.
  split; [by_evaluation|]. do 2 eexists.
  split; [by vm_compute|]. split; [by vm_compute|]. split; [done|]. simpl. discriminate.
Qed.

Example eye_on_four_processes :
  isFillComplete (UnitTests.eye 4) ∧
  getGlobalNNZ (mkAdapter (UnitTests.eye 4)) = 40 ∧
  getLocalNNZ (mkAdapter (UnitTests.eye 4)) 2 = 10 ∧
  getMaxNNZ (mkAdapter (UnitTests.eye 4)) = 1.
Proof. split; [by_evaluation|]. by vm_compute. Qed.

End AmesosProofs.

(* ===================================================================== *)
(** * Properties of the helper functions of the test file                 *)
(* ===================================================================== *)

Module TestFileProofs.

Import Tpetra Amesos.

Section Zip.

Context {T1 T2 : Type} `{Inhabited T1, Inhabited T2}.

Implicit Types (a : list T1) (b : list T2).

Lemma zip_lookup_total a b i :
  i < min (length a) (length b) → zip a b !! i = Some (a !!! i, b !!! i).
Proof.
  intros Hi.
  destruct (lookup_lt_is_Some_2 a i ltac:(lia)) as [x Hx].
  destruct (lookup_lt_is_Some_2 b i ltac:(lia)) as [y Hy].
  rewrite (list_lookup_total_correct _ _ _ Hx), (list_lookup_total_correct _ _ _ Hy).
  apply lookup_zip_with_Some. eauto.
Qed.

Lemma zip_fill_prefix a b k :
  k ≤ min (length a) (length b) →
  foldl (λ r i, <[i := (a !!! i, b !!! i)]> r)
        (replicate (min (length a) (length b)) (inhabitant, inhabitant)) (seq 0 k) =
  take k (zip a b) ++ replicate (min (length a) (length b) - k) (inhabitant, inhabitant).
Proof.
  induction k as [|k IH]; intros Hk.
  - simpl. by rewrite Nat.sub_0_r.
  - rewrite seq_S, foldl_app, IH by lia. simpl.
    assert (Hlen : length (take k (zip a b)) = k).
    { rewrite length_take, length_zip_with. lia. }
    rewrite (take_S_r _ _ _ (zip_lookup_total a b k ltac:(lia))).
    replace (min (length a) (length b) - k) with (S (min (length a) (length b) - S k)) by lia.
    rewrite <- app_assoc. simpl.
    rewrite insert_app_r_alt by lia. rewrite Hlen, Nat.sub_diag. done.
Qed.

Lemma zip_loop_eq a b : TestFile.zip a b = zip a b.
Proof.
  unfold TestFile.zip. rewrite zip_fill_prefix by lia.
  rewrite Nat.sub_diag. simpl. rewrite app_nil_r.
  apply take_ge. rewrite length_zip_with. lia.
Qed.

(** X1: the index loop of [zip] leaves no value-initialised pair behind:
    its result is the list of pairs of the two arrays up to the shorter
    one, so it has [min] of the two sizes and holds [(a[i], b[i])] at
    every position [i]. *)
Theorem zip_loop_is_zip a b :
  TestFile.zip a b = zip a b ∧
  length (TestFile.zip a b) = min (length a) (length b) ∧
  ∀ i, i < min (length a) (length b) → TestFile.zip a b !! i = Some (a !!! i, b !!! i).
Proof.
  pose proof (zip_loop_eq a b) as Heq.
  rewrite Heq. split; [done|]. split; [by rewrite length_zip_with|].
  apply zip_lookup_total.
Qed.

(** X2: projecting the result of [zip] back gives each array cut to the
    length of the other; two arrays of equal size are recovered whole. *)
Theorem zip_projections a b :
  (TestFile.zip a b).*1 = take (length b) a ∧
  (TestFile.zip a b).*2 = take (length a) b ∧
  (length a = length b → (TestFile.zip a b).*1 = a ∧ (TestFile.zip a b).*2 = b).
Proof.
  pose proof (zip_loop_eq a b) as Heq.
  rewrite Heq.
  assert (H1 : (zip a b).*1 = take (length b) a).
  { clear Heq. revert b. induction a as [|x a IH]; intros [|y b]; simpl; try done.
    f_equal. apply IH. }
  assert (H2 : (zip a b).*2 = take (length a) b).
  { clear Heq H1. revert b. induction a as [|x a IH]; intros [|y b]; simpl; try done.
    f_equal. apply IH. }
  split; [done|]. split; [done|]. intros Hlen. rewrite H1, H2.
  split; apply take_ge; lia.
Qed.

End Zip.

Section Contains.

Context {T : Type} `{EqDecision T}.

Implicit Types (a b : list T) (t : T).

Lemma std_find_le a t : TestFile.std_find a t ≤ length a.
Proof. induction a as [|x a IH]; simpl; [done|]. case_decide; simpl; lia. Qed.

Lemma std_find_found a t : TestFile.std_find a t < length a ↔ t ∈ a.
Proof.
  induction a as [|x a IH]; simpl.
  - split; [lia|]. by intros ?%elem_of_nil.
  - rewrite elem_of_cons. case_decide as Hx; [subst; split; [auto|lia]|].
    rewrite <- IH. split; [intros; right; lia|]. intros [?|?]; [congruence|lia].
Qed.

Lemma contains_elem_of a t : TestFile.contains a t = true ↔ t ∈ a.
Proof.
  unfold TestFile.contains. rewrite bool_decide_eq_true, <- std_find_found.
  pose proof (std_find_le a t). lia.
Qed.

(** X3: [std::find] stops at the first element equal to [t]: when it
    returns a position before the end, that position holds [t] and no
    earlier one does; it returns the end exactly when [t] does not occur.
    Hence [contains] is membership, and it is what the model of the CRS
    test uses. *)
Theorem std_find_first_match a t :
  (TestFile.std_find a t < length a →
   a !! TestFile.std_find a t = Some t ∧
   ∀ j, j < TestFile.std_find a t → a !! j ≠ Some t) ∧
  (TestFile.std_find a t = length a ↔ t ∉ a) ∧
  (TestFile.contains a t = true ↔ t ∈ a) ∧
  TestFile.contains a t = UnitTests.contains a t.
Proof.
  split; [|split; [|split]].
  - induction a as [|x a IH]; simpl; [lia|].
    case_decide as Hx; [subst|].
    + intros _. split; [done|]. intros j Hj. lia.
    + intros Hlt. destruct (IH ltac:(lia)) as [Hat Hbefore]. split; [done|].
      intros [|j] Hj; simpl; [congruence|]. apply Hbefore. lia.
  - rewrite <- std_find_found. pose proof (std_find_le a t). lia.
  - apply contains_elem_of.
  - unfold UnitTests.contains. destruct (TestFile.contains a t) eqn:Hc.
    + symmetry. apply bool_decide_eq_true. by apply contains_elem_of.
    + symmetry. apply bool_decide_eq_false. intros Hin%contains_elem_of. congruence.
Qed.

(** X4: the answer of [contains] does not depend on the order of the
    array, and on two arrays laid end to end it is the disjunction of the
    answers on each; in the empty array nothing is found. *)
Theorem contains_rearranged a b t :
  (a ≡ₚ b → TestFile.contains a t = TestFile.contains b t) ∧
  TestFile.contains (a ++ b) t = TestFile.contains a t || TestFile.contains b t ∧
  TestFile.contains [] t = false.
Proof.
  assert (Hiff : ∀ l1 l2, (t ∈ l1 ↔ t ∈ l2) → TestFile.contains l1 t = TestFile.contains l2 t).
  { intros l1 l2 Hl. destruct (TestFile.contains l1 t) eqn:H1, (TestFile.contains l2 t) eqn:H2;
      try done.
    - apply contains_elem_of, Hl, contains_elem_of in H1. congruence.
    - apply contains_elem_of, Hl, contains_elem_of in H2. congruence. }
  split; [|split; [|done]].
  - intros Hperm. apply Hiff. by rewrite Hperm.
  - destruct (TestFile.contains a t) eqn:Ha; simpl.
    + apply contains_elem_of, elem_of_app. left. by apply contains_elem_of.
    + apply Hiff. rewrite elem_of_app. split; [|auto].
      intros [Hin%contains_elem_of|?]; [congruence|done].
Qed.

End Contains.

(** X17: the way the CRS test pairs values with columns: [contains] finds
    a pair in [zip(a, b)] exactly when the two components stand at one and
    the same position of [a] and of [b]. *)
Theorem contains_zip_same_position {T1 T2} `{Inhabited T1, Inhabited T2}
    `{EqDecision T1, EqDecision T2} (a : list T1) (b : list T2) (x : T1) (y : T2) :
  TestFile.contains (TestFile.zip a b) (x, y) = true ↔
  ∃ i, a !! i = Some x ∧ b !! i = Some y.
Proof.
  rewrite contains_elem_of.
  rewrite zip_loop_eq.
  rewrite list_elem_of_lookup. split.
  - intros [i Hi]. exists i. apply lookup_zip_with_Some in Hi as (x' & y' & [= <- <-] & ? & ?).
    done.
  - intros (i & Ha & Hb). exists i. apply lookup_zip_with_Some. eauto.
Qed.

(** ** What the CRS test accepts *)

Section CRSTest.

Import UnitTests.

Lemma expected_in_got_iff (got expected : list (Z * nat)) n :
  length expected = n → NoDup expected → length got ≤ n →
  forallb (λ i, from_option (UnitTests.contains got) false (expected !! i)) (seq 0 n) = true
  ↔ got ≡ₚ expected.
Proof.
  intros Hlen Hnd Hgot. rewrite forallb_forall. split.
  - intros Hall. symmetry. apply submseteq_length_Permutation; [|lia].
    apply NoDup_submseteq; [done|]. intros e [i Hi]%list_elem_of_lookup_1.
    pose proof (lookup_lt_Some _ _ _ Hi) as Hlt.
    specialize (Hall i). rewrite Hi in Hall. simpl in Hall.
    unfold UnitTests.contains in Hall. eapply bool_decide_eq_true_1, Hall.
    apply list_elem_of_In, elem_of_seq. lia.
  - intros Hperm i [_ Hi]%list_elem_of_In%elem_of_seq.
    destruct (lookup_lt_is_Some_2 expected i ltac:(lia)) as [e He]. rewrite He. simpl.
    apply bool_decide_eq_true. rewrite Hperm. by eapply list_elem_of_lookup_2.
Qed.

Lemma view_nonempty {A} (l : list A) rp n : view l rp n ≠ [] → rp < length l.
Proof.
  unfold view. intros Hne. destruct (decide (rp < length l)) as [|Hge]; [done|].
  rewrite drop_ge in Hne by lia. by rewrite take_nil in Hne.
Qed.

Lemma rowMatches_iff (out : Compressed Z) r :
  length (TestFile.expectedRow out r) = pointers out !!! (r + 1) - pointers out !!! r →
  NoDup (TestFile.expectedRow out r) →
  TestFile.expectedRow out r ≠ [] →
  CRS.rowMatches out r = true ↔ TestFile.gotRow out r ≡ₚ TestFile.expectedRow out r.
Proof.
  intros Hlen Hnd Hne. unfold CRS.rowMatches.
  fold (TestFile.expectedRow out r). fold (TestFile.gotRow out r).
  assert (Hgot : length (TestFile.gotRow out r) ≤ pointers out !!! (r + 1) - pointers out !!! r).
  { unfold TestFile.gotRow, view. rewrite length_zip_with, !length_take. lia. }
  rewrite !andb_true_iff, !bool_decide_eq_true.
  rewrite (expected_in_got_iff _ _ _ Hlen Hnd Hgot).
  split; [by intros [_ ?]|]. intros Hperm. split; [|done].
  assert (Hgne : TestFile.gotRow out r ≠ []).
  { intros Hnil. rewrite Hnil in Hperm. by apply Permutation_nil_l in Hperm. }
  unfold TestFile.gotRow in Hgne.
  split; eapply view_nonempty; intros Hv; apply Hgne; rewrite Hv; [done|].
  by destruct (view (nzvals out) _ _).
Qed.

Lemma expectedRow_facts (out : Compressed Z) r :
  pointers out = CRS.rowptr_test → r < nrows →
  length (TestFile.expectedRow out r) = pointers out !!! (r + 1) - pointers out !!! r ∧
  NoDup (TestFile.expectedRow out r) ∧
  TestFile.expectedRow out r ≠ [].
Proof.
  intros Hptr Hr. unfold TestFile.expectedRow. rewrite Hptr. unfold nrows in Hr.
  do 6 (destruct r as [|r];
        [split; [by vm_compute|]; split;
           [refine (bool_decide_unpack _ _); vm_compute; exact I|by vm_compute]|]).
  lia.
Qed.

Lemma CRS_checks_rows (out : Compressed Z) :
  CRS.checks out = true ↔
  pointers out = CRS.rowptr_test ∧ nnz out = 12 ∧
  ∀ r, r < nrows → TestFile.gotRow out r ≡ₚ TestFile.expectedRow out r.
Proof.
  unfold CRS.checks. rewrite !andb_true_iff, !bool_decide_eq_true, forallb_forall.
  split.
  - intros [[Hrows Hptr] Hnnz]. split; [done|]. split; [done|]. intros r Hr.
    destruct (expectedRow_facts out r Hptr Hr) as (Hlen & Hnd & Hne).
    apply rowMatches_iff; [done..|]. apply Hrows, list_elem_of_In, elem_of_seq. lia.
  - intros (Hptr & Hnnz & Hrows). split; [split; [|done]|done].
    intros r [_ Hr]%list_elem_of_In%elem_of_seq. simpl in Hr.
    destruct (expectedRow_facts out r Hptr Hr) as (Hlen & Hnd & Hne).
    apply rowMatches_iff; [done..|]. by apply Hrows.
Qed.

(** X5: the CRS test accepts exactly the outputs whose [rowptr] is the
    expected one, whose [nnz] is 12, and in which every row holds the
    expected (value, column) pairs in some order: nothing is missing,
    nothing is added, and the order inside a row is free. *)
Theorem CRS_checks_accept_exactly (out : Compressed Z) :
  CRS.checks out = true ↔
  pointers out = CRS.rowptr_test ∧ nnz out = 12 ∧
  ∀ r, r < nrows → TestFile.gotRow out r ≡ₚ TestFile.expectedRow out r.
Proof. apply CRS_checks_rows. Qed.

Lemma bind_seq_Permutation {A} (f g : nat → list A) n :
  (∀ r, r < n → f r ≡ₚ g r) → seq 0 n ≫= f ≡ₚ seq 0 n ≫= g.
Proof.
  induction n as [|n IH]; intros Hfg; [done|].
  rewrite seq_S, !bind_app. simpl. rewrite !app_nil_r.
  rewrite IH by (intros; apply Hfg; lia). by rewrite Hfg by lia.
Qed.

Lemma zip_swap {A B} (l : list A) (k : list B) :
  zip l k = (λ p, (p.2, p.1)) <$> zip k l.
Proof. revert k. induction l as [|x l IH]; intros [|y k]; simpl; [done..|]. by rewrite IH. Qed.

(** X6: both tests are sound for the matrix they build: whatever arrays
    pass the checks of the CRS test, read back as triples, are a
    rearrangement of the inserted entries, and so are the arrays that pass
    the checks of the CCS test. *)
Theorem tests_accept_only_the_inserted_matrix (out : Compressed Z) :
  (CRS.checks out = true → triplesOfCrs out ≡ₚ inserted) ∧
  (CCS.checks out = true → triplesOfCcs out ≡ₚ inserted).
Proof.
  split.
  - intros (Hptr & _ & Hrows)%CRS_checks_rows. unfold triplesOfCrs.
    replace (length (pointers out) - 1) with nrows by (by rewrite Hptr).
    rewrite (bind_seq_Permutation _
               (λ r, (λ vc : Z * nat, (r, vc.2, vc.1)) <$> TestFile.expectedRow out r)).
    + unfold TestFile.expectedRow. rewrite Hptr.
      refine (bool_decide_unpack _ _); vm_compute; exact I.
    + intros r Hr. unfold slicePairs. rewrite zip_swap.
      fold (TestFile.gotRow out r). rewrite (Hrows r Hr).
      by rewrite <- list_fmap_compose.
  - unfold CCS.checks. rewrite !andb_true_iff, !bool_decide_eq_true.
    intros [[[Hv Hi] Hp] _]. destruct out as [v i p n]. simpl in *. subst v i p.
    refine (bool_decide_unpack _ _); vm_compute; exact I.
Qed.

End CRSTest.

Lemma zip_loop_is_zip_witness :
  1 < min (length [7; 8; 9]) (length [true; false]) ∧
  TestFile.zip [7; 8; 9] [true; false] !! 1 = Some ([7; 8; 9] !!! 1, [true; false] !!! 1).
Proof.
  assert (Hlt : 1 < min (length [7; 8; 9]) (length [true; false])) by (vm_compute; lia).
  split; [exact Hlt|].
  exact (proj2 (proj2 (zip_loop_is_zip [7; 8; 9] [true; false])) 1 Hlt).
Defined.

Lemma contains_zip_same_position_witness :
  (∃ i, [7; -3; -1]%Z !! i = Some (-3)%Z ∧ [0; 2; 4] !! i = Some 2) ∧
  TestFile.contains (TestFile.zip [7; -3; -1]%Z [0; 2; 4]) ((-3)%Z, 2) = true.
Proof.
  assert (Hex : ∃ i, [7; -3; -1]%Z !! i = Some (-3)%Z ∧ [0; 2; 4] !! i = Some 2)
    by (exists 1; split; reflexivity).
  split; [exact Hex|].
  exact (proj2 (contains_zip_same_position [7; -3; -1]%Z [0; 2; 4] (-3)%Z 2) Hex).
Defined.

Lemma zip_projections_witness :
  length [1; 2; 3] = length [true; false; true] ∧
  (TestFile.zip [1; 2; 3] [true; false; true]).*1 = [1; 2; 3] ∧
  (TestFile.zip [1; 2; 3] [true; false; true]).*2 = [true; false; true].
Proof.
  split; [reflexivity|].
  exact (proj2 (proj2 (zip_projections [1; 2; 3] [true; false; true])) eq_refl).
Defined.

Lemma std_find_first_match_witness :
  TestFile.std_find [4; 7; 5; 7] 7 < length [4; 7; 5; 7] ∧
  [4; 7; 5; 7] !! TestFile.std_find [4; 7; 5; 7] 7 = Some 7.
Proof.
  assert (Hlt : TestFile.std_find [4; 7; 5; 7] 7 < length [4; 7; 5; 7]) by (vm_compute; lia).
  split; [exact Hlt|].
  exact (proj1 (proj1 (std_find_first_match [4; 7; 5; 7] 7) Hlt)).
Defined.

Lemma tests_accept_only_the_inserted_matrix_witness :
  UnitTests.CCS.checks
    (mkCompressed UnitTests.CCS.nzvals_test UnitTests.CCS.rowind_test
                  UnitTests.CCS.colptr_test 12) = true ∧
  triplesOfCcs (mkCompressed UnitTests.CCS.nzvals_test UnitTests.CCS.rowind_test
                             UnitTests.CCS.colptr_test 12) ≡ₚ UnitTests.inserted.
Proof.
  split; [reflexivity|].
  exact (proj2 (tests_accept_only_the_inserted_matrix
                  (mkCompressed UnitTests.CCS.nzvals_test UnitTests.CCS.rowind_test
                                UnitTests.CCS.colptr_test 12)) eq_refl).
Defined.

Lemma CRS_checks_accept_exactly_witness :
  UnitTests.CRS.checks
    (mkCompressed [-1; -3; 7; 8; 2; 1; 5; -3; 4; -1; 6; -2]%Z
                  [4; 2; 0; 1; 0; 2; 3; 0; 4; 1; 5; 3]
                  UnitTests.CRS.rowptr_test 12) = true ∧
  nnz (mkCompressed [-1; -3; 7; 8; 2; 1; 5; -3; 4; -1; 6; -2]%Z
                    [4; 2; 0; 1; 0; 2; 3; 0; 4; 1; 5; 3]
                    UnitTests.CRS.rowptr_test 12) = 12.
Proof.
  split; [reflexivity|].
  exact (proj1 (proj2 (proj1 (CRS_checks_accept_exactly
           (mkCompressed [-1; -3; 7; 8; 2; 1; 5; -3; 4; -1; 6; -2]%Z
                         [4; 2; 0; 1; 0; 2; 3; 0; 4; 1; 5; 3]
                         UnitTests.CRS.rowptr_test 12)) eq_refl))).
Defined.

Lemma contains_rearranged_witness :
  [1; 2; 3] ≡ₚ [3; 1; 2] ∧
  TestFile.contains [1; 2; 3] 2 = TestFile.contains [3; 1; 2] 2.
Proof.
  assert (Hp : [1; 2; 3] ≡ₚ [3; 1; 2]) by (refine (bool_decide_unpack _ _); vm_compute; exact I).
  split; [exact Hp|].
  exact (proj1 (contains_rearranged [1; 2; 3] [3; 1; 2] 2) Hp).
Defined.

End TestFileProofs.

(* ===================================================================== *)
(** * Further properties of Belos::MueLuEpetraPrecOp                      *)
(* ===================================================================== *)

Module BelosMore.

Import Belos BelosProofs.

Section More.

Context {Scalar : Type} (zero : Scalar).
Context {Hierarchy : Type}.
Context (cycle : Hierarchy → list (list Scalar) → nat → list (list Scalar) → bool → list (list Scalar)).

Implicit Types (this : MueLuEpetraPrecOp (Hierarchy := Hierarchy)).
Implicit Types (m : Machine (Scalar := Scalar)).

Lemma Apply_NOTRANS_machine this (x y : nat) m :
  Apply zero cycle this x y NOTRANS m =
  (Returned (),
   mkMachine
     match alter (filled zero) y (vectors m) !! x, alter (filled zero) y (vectors m) !! y with
     | Some b, Some x0 =>
         <[y := cycle (Hierarchy_ this) b 1 x0 true]> (alter (filled zero) y (vectors m))
     | _, _ => alter (filled zero) y (vectors m)
     end
     (calls m ++ [mkCall x 1 y true])).
Proof. reflexivity. Qed.

Lemma Apply_live_machine this (x y : nat) m (dx dy : list (list Scalar)) :
  x ≠ y → vectors m !! x = Some dx → vectors m !! y = Some dy →
  Apply zero cycle this x y NOTRANS m =
  (Returned (),
   mkMachine (<[y := cycle (Hierarchy_ this) dx 1 (filled zero dy) true]> (vectors m))
             (calls m ++ [mkCall x 1 y true])).
Proof.
  intros Hne Hx Hy. rewrite Apply_NOTRANS_machine.
  rewrite lookup_alter_ne, Hx by done. rewrite lookup_alter_eq, Hy. simpl.
  do 2 f_equal. apply map_eq. intros k. rewrite !lookup_insert.
  case_decide; [done|]. by rewrite lookup_alter_ne.
Qed.

(** X7: through the generic interface the outcome is decided by the
    downcasts first and the transpose mode second: the call returns
    exactly when both operands are Epetra vectors and the mode is
    no-transpose; it throws the downcast failure exactly when a downcast
    fails, whatever the mode; and the transpose failure exactly when both
    downcasts succeed and the mode is another one.  A returning call adds
    one [Iterate(x, 1, y, true)] to the log, also when [x] or [y] are not
    live vectors. *)
Theorem Apply_MultiVec_outcome this (gx gy : MultiVec) trans m :
  ((Apply_MultiVec zero cycle this gx gy trans m).1 = Returned () ↔
   is_Some (dynamic_cast gx) ∧ is_Some (dynamic_cast gy) ∧ trans = NOTRANS) ∧
  ((Apply_MultiVec zero cycle this gx gy trans m).1 = Thrown InterfaceMismatch ↔
   dynamic_cast gx = None ∨ dynamic_cast gy = None) ∧
  ((Apply_MultiVec zero cycle this gx gy trans m).1 = Thrown UnsupportedOperation ↔
   is_Some (dynamic_cast gx) ∧ is_Some (dynamic_cast gy) ∧ trans ≠ NOTRANS) ∧
  (∀ x y, dynamic_cast gx = Some x → dynamic_cast gy = Some y → trans = NOTRANS →
          calls (Apply_MultiVec zero cycle this gx gy trans m).2 =
          calls m ++ [mkCall x 1 y true]).
Proof.
  assert (Hnone : ¬ is_Some (@None nat)) by (by intros ?%is_Some_None).
  unfold Apply_MultiVec. destruct gx as [x|], gy as [y|]; simpl.
  - rewrite Apply_outcome. destruct (decide (trans = NOTRANS)) as [->|Ht].
    + split; [naive_solver|]. split; [naive_solver|]. split; [naive_solver|].
      by intros ? ? [= <-] [= <-] _.
    + split; [naive_solver|]. split; [naive_solver|]. split; [naive_solver|]. done.
  - split; [naive_solver|]. split; [naive_solver|]. split; [naive_solver|]. done.
  - split; [naive_solver|]. split; [naive_solver|]. split; [naive_solver|]. done.
  - split; [naive_solver|]. split; [naive_solver|]. split; [naive_solver|]. done.
Qed.

(** X8: [Apply] writes to no vector but [y]: whatever the mode and the
    outcome, the set of live vectors is the same afterwards, every vector
    other than [y] holds what it held, and in particular the input [x],
    whose constness is cast away, is unchanged unless it is [y] itself. *)
Theorem Apply_writes_only_y this (x y : nat) trans m :
  dom (vectors (Apply zero cycle this x y trans m).2) = dom (vectors m) ∧
  (∀ v, v ≠ y →
        vectors (Apply zero cycle this x y trans m).2 !! v = vectors m !! v) ∧
  (x ≠ y → vectors (Apply zero cycle this x y trans m).2 !! x = vectors m !! x).
Proof.
  assert (Hframe : dom (vectors (Apply zero cycle this x y trans m).2) = dom (vectors m) ∧
            ∀ v, v ≠ y → vectors (Apply zero cycle this x y trans m).2 !! v = vectors m !! v).
  { destruct (decide (trans = NOTRANS)) as [->|Ht]; [|by rewrite Apply_throws].
    rewrite Apply_NOTRANS_machine. simpl.
    destruct (alter (filled zero) y (vectors m) !! x) as [b|];
      [destruct (alter (filled zero) y (vectors m) !! y) as [x0|] eqn:Hy|].
    - split.
      + rewrite dom_insert_L, dom_alter_L.
        assert (y ∈ dom (vectors m)); [|set_solver].
        rewrite <- (dom_alter_L (filled zero) (vectors m) y). by apply elem_of_dom.
      + intros v Hv. by rewrite lookup_insert_ne, lookup_alter_ne.
    - split; [by rewrite dom_alter_L|]. intros v Hv. by rewrite lookup_alter_ne.
    - split; [by rewrite dom_alter_L|]. intros v Hv. by rewrite lookup_alter_ne. }
  destruct Hframe as [Hdom Hother]. split; [done|]. split; [done|]. apply Hother.
Qed.

(** X9: the result of [Apply] is a function of [x] alone: when [x] and [y]
    are distinct live vectors and the hierarchy returns a vector of the
    shape of [y], a second [Apply] with the same operands leaves every
    vector exactly as the first one did, and the hierarchy has been called
    twice with the same arguments. *)
Theorem Apply_twice_same_vectors this (x y : nat) m (dx dy : list (list Scalar)) :
  x ≠ y →
  vectors m !! x = Some dx →
  vectors m !! y = Some dy →
  length <$> cycle (Hierarchy_ this) dx 1 (filled zero dy) true = length <$> dy →
  vectors (Apply zero cycle this x y NOTRANS (Apply zero cycle this x y NOTRANS m).2).2 =
    vectors (Apply zero cycle this x y NOTRANS m).2 ∧
  calls (Apply zero cycle this x y NOTRANS (Apply zero cycle this x y NOTRANS m).2).2 =
    calls m ++ [mkCall x 1 y true; mkCall x 1 y true].
Proof.
  intros Hne Hx Hy Hshape.
  rewrite (Apply_live_machine this x y m dx dy) by done. cbn [snd].
  rewrite (Apply_live_machine this x y _ dx
             (cycle (Hierarchy_ this) dx 1 (filled zero dy) true)); cbn [snd vectors calls].
  - rewrite insert_insert_eq, (filled_same_shape zero _ dy) by done.
    split; [done|]. by rewrite <- app_assoc.
  - done.
  - by rewrite lookup_insert_ne.
  - by rewrite lookup_insert_eq.
Qed.

End More.

Lemma Apply_MultiVec_outcome_witness :
  (dynamic_cast (OtherMultiVec 3) = None ∨ dynamic_cast (EpetraMultiVec 1) = None) ∧
  (Apply_MultiVec 0%Z richardson precOp (OtherMultiVec 3) (EpetraMultiVec 1) TRANS twoVectors).1 =
    Thrown InterfaceMismatch.
Proof.
  assert (Hcast : dynamic_cast (OtherMultiVec 3) = None ∨ dynamic_cast (EpetraMultiVec 1) = None)
    by (left; reflexivity).
  split; [exact Hcast|].
  exact (proj2 (proj1 (proj2 (Apply_MultiVec_outcome 0%Z richardson precOp
           (OtherMultiVec 3) (EpetraMultiVec 1) TRANS twoVectors))) Hcast).
Defined.

Lemma Apply_writes_only_y_witness :
  0 ≠ 1 ∧
  vectors (Apply 0%Z richardson precOp 0 1 NOTRANS twoVectors).2 !! 0 = Some [[1; 2; 3]%Z].
Proof.
  assert (Hne : 0 ≠ 1) by discriminate. split; [exact Hne|].
  rewrite (proj2 (proj2 (Apply_writes_only_y 0%Z richardson precOp 0 1 NOTRANS twoVectors)) Hne).
  reflexivity.
Defined.

Lemma Apply_twice_same_vectors_witness :
  0 ≠ 1 ∧
  vectors twoVectors !! 0 = Some [[1; 2; 3]%Z] ∧
  vectors twoVectors !! 1 = Some [[99; 98; 97]%Z] ∧
  length <$> richardson 2 [[1; 2; 3]%Z] 1 (filled 0%Z [[99; 98; 97]%Z]) true =
    length <$> [[99; 98; 97]%Z] ∧
  vectors (Apply 0%Z richardson precOp 0 1 NOTRANS
             (Apply 0%Z richardson precOp 0 1 NOTRANS twoVectors).2).2 =
    vectors (Apply 0%Z richardson precOp 0 1 NOTRANS twoVectors).2.
Proof.
  assert (Hne : 0 ≠ 1) by discriminate.
  split; [exact Hne|]. split; [reflexivity|]. split; [reflexivity|]. split; [reflexivity|].
  exact (proj1 (Apply_twice_same_vectors 0%Z richardson precOp 0 1 twoVectors
                  [[1; 2; 3]%Z] [[99; 98; 97]%Z] Hne eq_refl eq_refl eq_refl)).
Defined.

End BelosMore.

(* ===================================================================== *)
(** * Further properties of the extraction                                *)
(* ===================================================================== *)

Module AmesosMore.

Import Tpetra Amesos AmesosProofs.

Section More.

Context {Scalar : Type}.

Implicit Types (a : MatrixAdapter Scalar) (out : Compressed Scalar).

Lemma getCrs_inv a s1 s2 s3 out :
  getCrs a s1 s2 s3 = inr out →
  buffersFit a (getGlobalNumRows a) s1 s2 s3 ∧
  out = compress col (rowBuckets a) (getGlobalNNZ a).
Proof. unfold getCrs. case_decide; [|done]. by intros [= <-]. Qed.

Lemma getCcs_inv a s1 s2 s3 out :
  getCcs a s1 s2 s3 = inr out →
  buffersFit a (getGlobalNumCols a) s1 s2 s3 ∧
  out = compress row (colBuckets a) (getGlobalNNZ a).
Proof. unfold getCcs. case_decide; [|done]. by intros [= <-]. Qed.


(** X10: the arrays do not depend on how the matrix is spread over the
    processes: two fill-completed matrices with the same dimensions and the
    same nonzeros, on any numbers of processes, get the very same answer
    from [getCcs], and from [getCrs] either the same failure or the same
    [rowptr] and [nnz] with row slices that are rearrangements of each
    other. *)
Theorem extraction_independent_of_distribution a a' (s1 s2 s3 : nat) :
  isFillComplete (mat_ a) → isFillComplete (mat_ a') →
  getGlobalNumRows a = getGlobalNumRows a' →
  getGlobalNumCols a = getGlobalNumCols a' →
  nonzeros (mat_ a) ≡ₚ nonzeros (mat_ a') →
  getCcs a s1 s2 s3 = getCcs a' s1 s2 s3 ∧
  match getCrs a s1 s2 s3, getCrs a' s1 s2 s3 with
  | inr out, inr out' =>
      pointers out = pointers out' ∧ nnz out = nnz out' ∧
      ∀ r, r < getGlobalNumRows a → slicePairs out r ≡ₚ slicePairs out' r
  | inl e, inl e' => e = e'
  | _, _ => False
  end.
Proof.
  intros Hfc Hfc' Hrows Hcols Hperm.
  destruct (extraction_deterministic a a' Hfc Hfc' Hrows Hcols Hperm) as [Hptr Hccs].
  assert (Hnnz : getGlobalNNZ a = getGlobalNNZ a').
  { apply getGlobalNNZ_deterministic; [by destruct Hfc|by destruct Hfc'|done]. }
  assert (Hfit : ∀ n n', n = n' →
            buffersFit a n s1 s2 s3 ↔ buffersFit a' n' s1 s2 s3).
  { intros n n' ->. unfold buffersFit. by rewrite Hnnz. }
  split.
  - unfold getCcs. rewrite Hccs.
    destruct (decide (buffersFit a _ s1 s2 s3)) as [Hf|Hf],
             (decide (buffersFit a' _ s1 s2 s3)) as [Hf'|Hf']; try done;
      exfalso; pose proof (Hfit _ _ Hcols); tauto.
  - unfold getCrs.
    destruct (decide (buffersFit a _ s1 s2 s3)) as [Hf|Hf],
             (decide (buffersFit a' _ s1 s2 s3)) as [Hf'|Hf']; try done;
      try (exfalso; pose proof (Hfit _ _ Hrows); tauto).
    split; [done|]. split; [done|].
    intros r Hr. rewrite !slicePairs_getCrs by congruence.
    unfold rowNonzeros. by rewrite Hperm.
Qed.


(** X12: the two formats describe one matrix: on a fill-completed matrix
    the arrays of [getCrs] and those of [getCcs], each read back as
    (row, column, value) triples, are rearrangements of each other, and
    both calls report the same [nnz]. *)
Theorem getCrs_getCcs_same_triples a (s1 s2 s3 s1' s2' s3' : nat) out out' :
  isFillComplete (mat_ a) →
  getCrs a s1 s2 s3 = inr out →
  getCcs a s1' s2' s3' = inr out' →
  triplesOfCrs out ≡ₚ triplesOfCcs out' ∧ nnz out = nnz out'.
Proof.
  intros Hfc [_ ->]%getCrs_inv [_ ->]%getCcs_inv. split; [|done].
  rewrite triplesOfCrs_buckets, triplesOfCcs_buckets.
  by rewrite rowBuckets_Permutation, colBuckets_Permutation.
Qed.

(** X13: in the arrays of [getCrs] the slice of every global row has as
    many entries as the row has nonzeros, which is never more than
    [getMaxNNZ] reports. *)
Theorem row_slice_sizes a (s1 s2 s3 : nat) out (r : nat) :
  getCrs a s1 s2 s3 = inr out →
  r < getGlobalNumRows a →
  pointers out !!! (r + 1) - pointers out !!! r = length (rowNonzeros (mat_ a) r) ∧
  length (slicePairs out r) = length (rowNonzeros (mat_ a) r) ∧
  length (rowNonzeros (mat_ a) r) ≤ getMaxNNZ a.
Proof.
  intros [_ ->]%getCrs_inv Hr.
  rewrite slicePairs_getCrs by done. simpl.
  destruct (offsets_slice_bounds (rowBuckets a) r _ (rowBuckets_lookup a r Hr)) as [-> ->].
  split; [|split; [done|]].
  - unfold rowNonzeros, bucket, gather. rewrite length_fmap. lia.
  - unfold getMaxNNZ, getGlobalMaxNumRowEntries. apply max_list_elem_of_le.
    apply list_elem_of_fmap. exists r. split; [done|]. apply elem_of_seq.
    unfold getGlobalNumRows, Tpetra.getGlobalNumRows in Hr. lia.
Qed.

End More.

(** ** Dealing the rows of a matrix out to processes *)

Section Distribution.

Import UnitTests.

Lemma omap_bind_list {A B C} (g : B → option C) (f : A → list B) (l : list A) :
  omap g (l ≫= f) = l ≫= (λ x, omap g (f x)).
Proof. induction l as [|x l IH]; csimpl; [done|]. by rewrite omap_app, IH. Qed.

Lemma omap_fmap_list {A B C} (g : B → option C) (h : A → B) (l : list A) :
  omap g (h <$> l) = omap (λ x, g (h x)) l.
Proof. induction l as [|x l IH]; csimpl; [done|]. by rewrite IH. Qed.

Lemma omap_Some_id {A} (g : A → option A) (l : list A) :
  (∀ x, x ∈ l → g x = Some x) → omap g l = l.
Proof.
  induction l as [|x l IH]; intros Hg; csimpl; [done|].
  rewrite (Hg x) by left. csimpl. f_equal. apply IH. intros y Hy. apply Hg. by right.
Qed.

Lemma bind_lookup_seq {A B} (f : A → list B) (l : list A) :
  seq 0 (length l) ≫= (λ i, from_option f [] (l !! i)) = l ≫= f.
Proof.
  induction l as [|x l IH]; csimpl; [done|]. f_equal.
  rewrite <- fmap_S_seq, list_fmap_bind. exact IH.
Qed.

Lemma bind_join {A B} (f : A → list B) (ls : list (list A)) :
  ls ≫= (λ l, l ≫= f) = mjoin ls ≫= f.
Proof. induction ls as [|l ls IH]; csimpl; [done|]. by rewrite bind_app, IH. Qed.

Lemma globalTriples_shareOf (entries : list (nat * nat * Z)) (rows : list nat) :
  globalTriples (shareOf entries rows) = rows ≫= (λ r, bucket row r entries).
Proof.
  unfold globalTriples, shareOf. cbn [localEntries].
  rewrite omap_bind_list, <- (bind_lookup_seq (λ r, bucket row r entries) rows).
  apply Forall_bind_ext, Forall_seq.
  intros i [_ Hi]. simpl in Hi.
  destruct (lookup_lt_is_Some_2 rows i Hi) as [r Hr]. rewrite Hr. simpl.
  rewrite omap_fmap_list. unfold bucket.
  rewrite (list_filter_iff (λ t, Some (row t) = Some r) (λ t, row t = r))
    by (intros t; split; [by intros [= ->]|by intros ->]).
  apply omap_Some_id. intros t [Ht _]%list_elem_of_filter.
  destruct t as [[tr tc] tv]. unfold row in Ht. simpl in Ht. subst tr.
  unfold toGlobal, row, col, val. cbn [myGlobalRows fst snd]. by rewrite Hr.
Qed.

Lemma nonzeros_shareOf (entries : list (nat * nat * Z)) (owners : list (list nat)) n m :
  nonzeros (mkMatrix n m (shareOf entries <$> owners)) =
  mjoin owners ≫= (λ r, bucket row r entries).
Proof.
  unfold nonzeros. cbn [parts]. rewrite list_fmap_bind, <- bind_join.
  apply list_bind_ext; [|done]. intros rows. apply globalTriples_shareOf.
Qed.

Lemma shareOf_partOk (entries : list (nat * nat * Z)) (rows : list nat) n m
    (A : CrsMatrix Z) :
  GlobalNumRows A = n → GlobalNumCols A = m →
  Forall (λ r, r < n) rows → Forall (λ t, col t < m) entries →
  partOk A (shareOf entries rows).
Proof.
  intros Hn Hm Hrows Hcols. split; cbn [myGlobalRows localEntries]; [by rewrite Hn|].
  apply Forall_bind, Forall_seq. intros i [_ Hi]. simpl in Hi.
  apply Forall_fmap, Forall_forall. intros t [_ Ht]%list_elem_of_filter.
  unfold row, col. simpl. split; [done|]. rewrite Hm.
  rewrite Forall_forall in Hcols. by apply Hcols.
Qed.

Lemma tests_pass_on_test_matrix (mat : CrsMatrix Z) :
  isTestMatrix mat → CRS.test mat = true ∧ CCS.test mat = true.
Proof.
  intros (Hrows & Hcols & Hfc & Hperm).
  destruct mat1_isTestMatrix as (Hrows1 & Hcols1 & Hfc1 & Hperm1).
  set (a := mkAdapter mat). set (a1 := mkAdapter mat1).
  assert (Hnz : nonzeros (mat_ a) ≡ₚ nonzeros (mat_ a1)) by (simpl; by rewrite Hperm, Hperm1).
  assert (Hr : Amesos.getGlobalNumRows a = nrows) by done.
  assert (Hr1 : Amesos.getGlobalNumRows a1 = nrows) by done.
  assert (Hc : Amesos.getGlobalNumCols a = Amesos.getGlobalNumCols a1)
    by (unfold Amesos.getGlobalNumCols, Tpetra.getGlobalNumCols; simpl; congruence).
  destruct (extraction_deterministic a a1 Hfc Hfc1 ltac:(congruence) Hc Hnz) as [_ Hccs].
  split.
  - unfold CRS.test. fold a. rewrite getCrs_fit by (unfold buffersFit; lia).
    rewrite (CRS_checks_deterministic a a1 Hfc Hfc1 Hr Hr1 Hc Hnz). by vm_compute.
  - unfold CCS.test. fold a. rewrite getCcs_fit.
    + rewrite Hccs. by vm_compute.
    + unfold buffersFit. rewrite Hr.
      replace (Amesos.getGlobalNumCols a) with nrows by done. lia.
Qed.

Lemma shareOf_matrix (entries : list (nat * nat * Z))
    (owners : list (list nat)) (n m : nat) :
  mjoin owners ≡ₚ seq 0 n →
  Forall (λ t, row t < n ∧ col t < m) entries →
  NoDup (position <$> entries) →
  isFillComplete (mkMatrix n m (shareOf entries <$> owners)) ∧
  nonzeros (mkMatrix n m (shareOf entries <$> owners)) ≡ₚ entries.
Proof.
  intros Howners Hrange Hnd.
  assert (Hnz : nonzeros (mkMatrix n m (shareOf entries <$> owners)) ≡ₚ entries).
  { rewrite nonzeros_shareOf, Howners, <- join_fmap_bind.
    apply (buckets_Permutation (λ l, l)); [done|].
    eapply Forall_impl; [exact Hrange|]. by intros t [? _]. }
  split; [|done]. split; [|by rewrite Hnz].
  cbn [parts]. apply Forall_fmap, Forall_forall. intros rows Hin.
  apply (shareOf_partOk entries rows n m); [done|done| |].
  - apply Forall_forall. intros r Hr.
    assert (r ∈ seq 0 n) as [_ ?]%elem_of_seq; [|done].
    rewrite <- Howners. apply list_elem_of_join. eauto.
  - eapply Forall_impl; [exact Hrange|]. by intros t [_ ?].
Qed.

(** X14: dealing the rows of a matrix out to processes does not change
    the matrix: whatever lists of rows the processes own, as long as every
    global row is owned exactly once, the shares form a fill-completed
    matrix whose nonzeros are a rearrangement of the entries handed in. *)
Theorem dealt_rows_keep_the_matrix (entries : list (nat * nat * Z))
    (owners : list (list nat)) (n m : nat) :
  mjoin owners ≡ₚ seq 0 n →
  Forall (λ t, row t < n ∧ col t < m) entries →
  NoDup (position <$> entries) →
  isFillComplete (mkMatrix n m (shareOf entries <$> owners)) ∧
  nonzeros (mkMatrix n m (shareOf entries <$> owners)) ≡ₚ entries.
Proof. apply shareOf_matrix. Qed.

(** X15: the CRS and the CCS test pass on any number of processes: however
    the six rows of the test matrix are dealt out, each row to exactly one
    process, [getCrs] and [getCcs] return arrays that pass all the checks. *)
Theorem tests_pass_for_every_dealing (owners : list (list nat)) :
  mjoin owners ≡ₚ seq 0 nrows →
  CRS.test (mkMatrix nrows nrows (shareOf inserted <$> owners)) = true ∧
  CCS.test (mkMatrix nrows nrows (shareOf inserted <$> owners)) = true.
Proof.
  intros Howners. apply tests_pass_on_test_matrix.
  destruct (shareOf_matrix inserted owners nrows nrows Howners) as [Hfc Hnz].
  - refine (bool_decide_unpack _ _); vm_compute; exact I.
  - refine (bool_decide_unpack _ _); vm_compute; exact I.
  - unfold isTestMatrix. split; [done|]. split; [done|]. by split.
Qed.

(** ** The identity matrix of the Initialization and Dimensions tests *)

Lemma globalTriples_eye_part (rank : nat) :
  globalTriples (mkPart (seq (numLocal * rank) numLocal)
                        ((λ i, (i, numLocal * rank + i, 1%Z)) <$> seq 0 numLocal)) =
  TestFile.diagonal <$> seq (numLocal * rank) numLocal.
Proof.
  unfold globalTriples. cbn [localEntries]. rewrite omap_fmap_list.
  generalize (numLocal * rank). intros base. generalize numLocal. intros n.
  transitivity ((λ i, TestFile.diagonal (base + i)) <$> seq 0 n);
    [|by rewrite (list_fmap_compose (Nat.add base) TestFile.diagonal),
                 fmap_add_seq, Nat.add_0_r].
  assert (Hgen : ∀ (es : list (nat * nat * Z)) (l : list nat),
            Forall (λ i, i < n) l →
            omap (λ x, toGlobal (mkPart (seq base n) es) (x, base + x, 1%Z)) l =
            (λ i, TestFile.diagonal (base + i)) <$> l).
  { intros es l Hall. induction Hall as [|i l Hi _ IH]; csimpl; [done|].
    unfold toGlobal at 1, row, col, val. cbn [myGlobalRows fst snd].
    rewrite lookup_seq_lt by done. csimpl. by rewrite IH. }
  apply Hgen, Forall_seq. intros i [_ ?]. lia.
Qed.

Lemma nonzeros_eye (numprocs : nat) :
  nonzeros (eye numprocs) = TestFile.diagonal <$> seq 0 (numLocal * numprocs).
Proof.
  unfold nonzeros, eye. cbn [parts]. rewrite list_fmap_bind.
  induction numprocs as [|p IH]; [by rewrite Nat.mul_0_r|].
  rewrite seq_S, bind_app, IH, Nat.add_0_l, bind_singleton.
  unfold compose. rewrite globalTriples_eye_part.
  replace (numLocal * S p) with (numLocal * p + numLocal) by lia.
  by rewrite seq_app, fmap_app.
Qed.

Lemma diagonal_row_count (r j n : nat) :
  length (filter (λ t : nat * nat * Z, row t = r) (TestFile.diagonal <$> seq j n)) =
  if decide (j ≤ r < j + n) then 1 else 0.
Proof.
  revert j. induction n as [|n IH]; intros j; csimpl.
  - case_decide; [lia|done].
  - rewrite filter_cons.
    destruct (decide (row (TestFile.diagonal j) = r)) as [Hj|Hj];
      unfold row in Hj; simpl in Hj; csimpl; rewrite IH; repeat case_decide; lia.
Qed.

Lemma remove_dups_NoDup_length {A} `{EqDecision A} (l : list A) :
  NoDup l → length (remove_dups l) = length l.
Proof.
  intros Hnd. apply Permutation_length, NoDup_Permutation; [apply NoDup_remove_dups|done|].
  intros x. apply elem_of_remove_dups.
Qed.

(** X16: the identity matrix that the Initialization and Dimensions tests
    build is a fill-completed square matrix on any number of processes:
    its nonzeros are exactly the ones on the diagonal, in order; the
    adapter reports [numLocal] per process and [numLocal * numprocs]
    globally for nonzeros and rows alike, and one nonzero at most per row. *)
Theorem eye_is_the_identity (numprocs : nat) :
  nonzeros (eye numprocs) = TestFile.diagonal <$> seq 0 (numLocal * numprocs) ∧
  isFillComplete (eye numprocs) ∧
  getGlobalNNZ (mkAdapter (eye numprocs)) = numLocal * numprocs ∧
  Amesos.getGlobalNumRows (mkAdapter (eye numprocs)) = numLocal * numprocs ∧
  (∀ rank, rank < numprocs →
           getLocalNNZ (mkAdapter (eye numprocs)) rank = numLocal ∧
           getLocalNumRows (mkAdapter (eye numprocs)) rank = numLocal ∧
           getLocalNumCols (mkAdapter (eye numprocs)) rank = numLocal) ∧
  (0 < numprocs → getMaxNNZ (mkAdapter (eye numprocs)) = 1).
Proof.
  assert (Hpart : ∀ rank, rank < numprocs →
            parts (eye numprocs) !! rank =
            Some (mkPart (seq (numLocal * rank) numLocal)
                         ((λ i, (i, numLocal * rank + i, 1%Z)) <$> seq 0 numLocal))).
  { intros rank Hr. unfold eye. cbn [parts]. by rewrite list_lookup_fmap, lookup_seq_lt. }
  assert (Hok : Forall (partOk (eye numprocs)) (parts (eye numprocs))).
  { unfold eye at 2. cbn [parts]. apply Forall_fmap, Forall_seq. intros rank [_ Hr].
    simpl in Hr. split; cbn [myGlobalRows localEntries GlobalNumRows GlobalNumCols eye].
    - apply Forall_seq. intros r [_ ?]. unfold numLocal in *. lia.
    - apply Forall_fmap, Forall_seq. intros i [_ Hi]. unfold row, col, compose.
      cbn [fst snd]. rewrite length_seq. unfold numLocal in *. lia. }
  split; [apply nonzeros_eye|]. split; [|split; [|split; [done|split]]].
  - split; [done|]. rewrite nonzeros_eye, <- list_fmap_compose.
    apply NoDup_fmap_2; [|apply NoDup_seq]. intros k1 k2 Heq.
    unfold compose, position, row, col, TestFile.diagonal in Heq. simpl in Heq. congruence.
  - unfold getGlobalNNZ. cbn [mat_]. rewrite <- length_nonzeros by done.
    by rewrite nonzeros_eye, length_fmap, length_seq.
  - intros rank Hr.
    unfold getLocalNNZ, getNodeNumEntries, getLocalNumRows, getNodeNumRows,
      getLocalNumCols, getNodeNumCols. cbn [mat_]. rewrite (Hpart rank Hr).
    cbn [from_option myGlobalRows localEntries].
    rewrite length_fmap, !length_seq. split; [done|]. split; [done|].
    rewrite remove_dups_NoDup_length.
    + by rewrite !length_fmap, length_seq.
    + rewrite <- list_fmap_compose. apply NoDup_fmap_2; [|apply NoDup_seq].
      intros i1 i2. unfold compose, col. simpl. lia.
  - intros Hp. unfold getMaxNNZ, getGlobalMaxNumRowEntries. cbn [mat_].
    assert (Hones : ∀ k, k ∈ (λ r, length (rowNonzeros (eye numprocs) r))
                              <$> seq 0 (GlobalNumRows (eye numprocs)) → k = 1).
    { intros k (r & -> & [_ Hr]%elem_of_seq)%list_elem_of_fmap.
      unfold rowNonzeros. rewrite length_fmap, nonzeros_eye, diagonal_row_count.
      cbn [eye GlobalNumRows] in Hr. rewrite decide_True; [done|lia]. }
    apply Hones, max_list_elem_of. cbn [eye GlobalNumRows]. unfold numLocal.
    destruct numprocs; [lia|]. by rewrite Nat.mul_succ_r, Nat.add_comm.
Qed.

End Distribution.

(** The theorems at work on the matrices of the tests. *)

Lemma extraction_independent_of_distribution_witness :
  isFillComplete UnitTests.mat1 ∧ isFillComplete UnitTests.matReversed ∧
  nonzeros UnitTests.mat1 ≡ₚ nonzeros UnitTests.matReversed ∧
  getCcs (mkAdapter UnitTests.mat1) 12 12 7 = getCcs (mkAdapter UnitTests.matReversed) 12 12 7.
Proof.
  assert (H1 : isFillComplete UnitTests.mat1) by by_evaluation.
  assert (H2 : isFillComplete UnitTests.matReversed) by by_evaluation.
  assert (H3 : nonzeros UnitTests.mat1 ≡ₚ nonzeros UnitTests.matReversed) by by_evaluation.
  split; [exact H1|]. split; [exact H2|]. split; [exact H3|].
  exact (proj1 (extraction_independent_of_distribution
                  (mkAdapter UnitTests.mat1) (mkAdapter UnitTests.matReversed) 12 12 7
                  H1 H2 eq_refl eq_refl H3)).
Defined.


Lemma getCrs_getCcs_same_triples_witness :
  isFillComplete UnitTests.matInterleaved ∧
  triplesOfCrs (compress col (rowBuckets (mkAdapter UnitTests.matInterleaved)) 12) ≡ₚ
  triplesOfCcs (compress row (colBuckets (mkAdapter UnitTests.matInterleaved)) 12).
Proof.
  assert (H1 : isFillComplete UnitTests.matInterleaved) by by_evaluation.
  split; [exact H1|].
  exact (proj1 (getCrs_getCcs_same_triples (mkAdapter UnitTests.matInterleaved)
                  12 12 7 12 12 7 _ _ H1 eq_refl eq_refl)).
Defined.

Lemma row_slice_sizes_witness :
  0 < getGlobalNumRows (mkAdapter UnitTests.mat2) ∧
  length (rowNonzeros UnitTests.mat2 0) ≤ getMaxNNZ (mkAdapter UnitTests.mat2).
Proof.
  assert (H1 : 0 < getGlobalNumRows (mkAdapter UnitTests.mat2)) by (vm_compute; lia).
  split; [exact H1|].
  exact (proj2 (proj2 (row_slice_sizes (mkAdapter UnitTests.mat2) 12 12 7 _ 0 eq_refl H1))).
Defined.

Lemma dealt_rows_keep_the_matrix_witness :
  mjoin [[5; 1]; []; [4; 0; 2; 3]] ≡ₚ seq 0 6 ∧
  nonzeros (mkMatrix 6 6 (UnitTests.shareOf UnitTests.inserted <$> [[5; 1]; []; [4; 0; 2; 3]]))
    ≡ₚ UnitTests.inserted.
Proof.
  assert (H1 : mjoin [[5; 1]; []; [4; 0; 2; 3]] ≡ₚ seq 0 6) by by_evaluation.
  split; [exact H1|].
  apply (dealt_rows_keep_the_matrix UnitTests.inserted [[5; 1]; []; [4; 0; 2; 3]] 6 6 H1);
    by_evaluation.
Defined.

Lemma tests_pass_for_every_dealing_witness :
  mjoin [[5; 1]; []; [4; 0; 2; 3]] ≡ₚ seq 0 UnitTests.nrows ∧
  UnitTests.CRS.test
    (mkMatrix UnitTests.nrows UnitTests.nrows
       (UnitTests.shareOf UnitTests.inserted <$> [[5; 1]; []; [4; 0; 2; 3]])) = true.
Proof.
  assert (H1 : mjoin [[5; 1]; []; [4; 0; 2; 3]] ≡ₚ seq 0 UnitTests.nrows) by by_evaluation.
  split; [exact H1|].
  exact (proj1 (tests_pass_for_every_dealing [[5; 1]; []; [4; 0; 2; 3]] H1)).
Defined.

Lemma eye_is_the_identity_witness :
  2 < 3 ∧ getLocalNNZ (mkAdapter (UnitTests.eye 3)) 2 = UnitTests.numLocal.
Proof.
  assert (H1 : 2 < 3) by lia. split; [exact H1|].
  exact (proj1 (proj1 (proj2 (proj2 (proj2 (proj2 (eye_is_the_identity 3))))) 2 H1)).
Defined.

End AmesosMore.
